(** * projected_normal/general/pdf.py: density of the projected normal

    A shallow embedding of [pdf], [log_pdf] and [_M_value].

    Modelling conventions.
    - The input tensors [mu], [covariance] and [y] hold (finite) real
      numbers; arithmetic on finite values is exact (no rounding, no
      overflow).  What the floating-point program owes to rounding or to
      overflow is therefore outside the model: that a computed value stays
      finite, or which matrices the inversion finds singular.
    - The values computed from them are IEEE-754 style scalars [xreal]:
      a finite real, one of the two infinities, or NaN, with the usual
      rules for the special values.  Zero carries no sign.
    - A torch call that raises makes the whole Python call raise; this is
      the error monad [result].
    - [torch] routines are modelled after their documentation:
      [torch.linalg.inv], [torch.logdet], [torch.einsum] (with its
      broadcasting of dimensions of size one), the elementwise operators
      and [torch.distributions.Normal(0, 1).cdf] (with its argument
      validation, whose switch [validate_args] is global to torch and is
      the first argument of the functions below). *)

From Stdlib Require Import Reals Lra Lia List Arith Bool.
From Stdlib Require Import ClassicalDescription IndefiniteDescription.
Import ListNotations.

Open Scope R_scope.

(** ** Errors *)

(** The exceptions a call can end with.  [SingularMatrix] is
    [torch.linalg.LinAlgError] raised by the inversion, [DimensionMismatch]
    a [RuntimeError] about operand shapes, [InvalidValue] the [ValueError]
    of the distribution's argument validation. *)
Inductive error : Type :=
| SingularMatrix
| DimensionMismatch
| InvalidValue.

Inductive result (A : Type) : Type :=
| Ok (a : A)
| Err (e : error).

Arguments Ok {A} a.
Arguments Err {A} e.

Definition bind {A B : Type} (r : result A) (k : A -> result B) : result B :=
  match r with
  | Ok a => k a
  | Err e => Err e
  end.

Notation "x <- r ;; k" := (bind r (fun x => k))
  (at level 61, r at next level, right associativity).

(** ** Scalars of a floating-point tensor *)

Inductive xreal : Type :=
| Fin (r : R)
| PInf
| NInf
| NaN.

Definition is_nan (x : xreal) : bool :=
  match x with
  | NaN => true
  | _ => false
  end.

Definition xneg (x : xreal) : xreal :=
  match x with
  | Fin r => Fin (- r)
  | PInf => NInf
  | NInf => PInf
  | NaN => NaN
  end.

Definition xadd (x y : xreal) : xreal :=
  match x, y with
  | Fin a, Fin b => Fin (a + b)
  | NaN, _ | _, NaN => NaN
  | PInf, NInf | NInf, PInf => NaN
  | PInf, _ | _, PInf => PInf
  | NInf, _ | _, NInf => NInf
  end.

Definition xsub (x y : xreal) : xreal := xadd x (xneg y).

(** The infinity of the given sign. *)
Definition inf_signed (positive : bool) : xreal :=
  if positive then PInf else NInf.

Definition xmul (x y : xreal) : xreal :=
  match x, y with
  | Fin a, Fin b => Fin (a * b)
  | NaN, _ | _, NaN => NaN
  | PInf, PInf | NInf, NInf => PInf
  | PInf, NInf | NInf, PInf => NInf
  | PInf, Fin b | Fin b, PInf =>
      if Req_dec_T b 0 then NaN
      else inf_signed (if Rlt_dec 0 b then true else false)
  | NInf, Fin b | Fin b, NInf =>
      if Req_dec_T b 0 then NaN
      else inf_signed (if Rlt_dec 0 b then false else true)
  end.

Definition xdiv (x y : xreal) : xreal :=
  match x, y with
  | Fin a, Fin b =>
      if Req_dec_T b 0 then
        if Req_dec_T a 0 then NaN
        else inf_signed (if Rlt_dec 0 a then true else false)
      else Fin (a / b)
  | NaN, _ | _, NaN => NaN
  | Fin _, PInf | Fin _, NInf => Fin 0
  | PInf, Fin b => inf_signed (if Rle_dec 0 b then true else false)
  | NInf, Fin b => inf_signed (if Rle_dec 0 b then false else true)
  | PInf, PInf | PInf, NInf | NInf, PInf | NInf, NInf => NaN
  end.

Definition xsqrt (x : xreal) : xreal :=
  match x with
  | Fin a => if Rlt_dec a 0 then NaN else Fin (sqrt a)
  | PInf => PInf
  | NInf => NaN
  | NaN => NaN
  end.

Definition xexp (x : xreal) : xreal :=
  match x with
  | Fin a => Fin (exp a)
  | PInf => PInf
  | NInf => Fin 0
  | NaN => NaN
  end.

Definition xlog (x : xreal) : xreal :=
  match x with
  | Fin a =>
      if Rlt_dec 0 a then Fin (ln a)
      else if Req_dec_T a 0 then NInf else NaN
  | PInf => PInf
  | NInf => NaN
  | NaN => NaN
  end.

(** [x ** 2]. *)
Definition xpow2 (x : xreal) : xreal := xmul x x.

(** ** The standard normal distribution function *)

Definition gauss (t : R) : R := exp (- (t * t)).

(** The integrand is continuous, hence integrable on every interval. *)
Definition gauss_integrable (a b : R) : Riemann_integrable gauss a b.
Proof.
  assert (Hc : continuity gauss).
  { unfold gauss.
    apply (continuity_comp (fun t => - (t * t)) exp).
    - apply continuity_opp.
      apply continuity_mult; apply derivable_continuous, derivable_id.
    - apply derivable_continuous, derivable_exp. }
  destruct (Rle_dec a b) as [Hab | Hab].
  - exact (continuity_implies_RiemannInt Hab (fun x _ => Hc x)).
  - apply RiemannInt_P1.
    exact (continuity_implies_RiemannInt
             (Rlt_le _ _ (Rnot_le_lt _ _ Hab)) (fun x _ => Hc x)).
Defined.

(** The error function, [2/sqrt(pi)] times the integral of [exp(-t^2)] from
    [0] to [z]. *)
Definition erf (z : R) : R :=
  2 / sqrt PI * RiemannInt (gauss_integrable 0 z).

(** [Normal(0, 1).cdf] on a finite argument, as torch computes it:
    [0.5 * (1 + erf((value - loc) * scale.reciprocal() / sqrt(2)))]. *)
Definition Phi (x : R) : R :=
  0.5 * (1 + erf ((x - 0) * / 1 / sqrt 2)).

Definition xcdf (x : xreal) : xreal :=
  match x with
  | Fin a => Fin (Phi a)
  | PInf => Fin 1
  | NInf => Fin 0
  | NaN => NaN
  end.

(** ** Floating-point tensors of rank 0 and 1 *)

(** The tensors the three functions compute with are 0-dimensional
    ([Scalar]) or 1-dimensional ([Vec]); Python numbers that meet a tensor
    in an operator behave like 0-dimensional tensors. *)
Inductive tensor : Type :=
| Scalar (x : xreal)
| Vec (l : list xreal).

(** A unary elementwise function ([torch.exp], [torch.sqrt], ...). *)
Definition t_map (f : xreal -> xreal) (t : tensor) : tensor :=
  match t with
  | Scalar x => Scalar (f x)
  | Vec l => Vec (map f l)
  end.

Fixpoint map2 {A B C : Type} (f : A -> B -> C) (l1 : list A) (l2 : list B)
  : list C :=
  match l1, l2 with
  | a :: l1', b :: l2' => f a b :: map2 f l1' l2'
  | _, _ => []
  end.

(** A binary elementwise operator.  A 0-dimensional operand is broadcast
    over the other one.  Two vectors are combined position by position; in
    this program the vectors that meet are the results of the last two
    contractions and what is computed from them, all of length
    [n_points]. *)
Definition t_zip (f : xreal -> xreal -> xreal) (t1 t2 : tensor) : tensor :=
  match t1, t2 with
  | Scalar a, Scalar b => Scalar (f a b)
  | Scalar a, Vec l => Vec (map (f a) l)
  | Vec l, Scalar b => Vec (map (fun x => f x b) l)
  | Vec l1, Vec l2 => Vec (map2 f l1 l2)
  end.

Definition t_add : tensor -> tensor -> tensor := t_zip xadd.
Definition t_sub : tensor -> tensor -> tensor := t_zip xsub.
Definition t_mul : tensor -> tensor -> tensor := t_zip xmul.
Definition t_div : tensor -> tensor -> tensor := t_zip xdiv.
Definition t_neg : tensor -> tensor := t_map xneg.
Definition t_sqrt : tensor -> tensor := t_map xsqrt.
Definition t_exp : tensor -> tensor := t_map xexp.
Definition t_log : tensor -> tensor := t_map xlog.
Definition t_pow2 : tensor -> tensor := t_map xpow2.

(** A Python float or int used as an operand. *)
Definition py_float (r : R) : tensor := Scalar (Fin r).
Definition py_int (i : Z) : tensor := Scalar (Fin (IZR i)).

Definition elements (t : tensor) : list xreal :=
  match t with
  | Scalar x => [x]
  | Vec l => l
  end.

(** [torch.distributions.Normal(0, 1).cdf(value)].

    A distribution object validates the argument of [cdf] against its
    support when its [validate_args] flag is set: the support of [Normal] is
    [constraints.real], whose check is [value == value], false exactly on
    NaN, and a failed check raises [ValueError].  The flag is the class-wide
    default [Distribution._validate_args = __debug__]: [true] unless Python
    runs with [-O] or the program called
    [Distribution.set_default_validate_args(False)].  pdf.py passes no
    [validate_args] of its own, so the flag is a parameter of the model. *)
Definition normal_cdf (validate_args : bool) (value : tensor) : result tensor :=
  if validate_args && existsb is_nan (elements value)
  then Err InvalidValue
  else Ok (t_map xcdf value).

(** ** [_M_value] *)

(** [range(lo, hi)]. *)
Definition range (lo hi : nat) : list nat := seq lo (hi - lo).

(** One turn of the loop of [_M_value] on the two-element list [M_vals],
    kept as a pair. *)
Definition M_step (alpha : tensor) (M_vals : tensor * tensor) (i : nat)
  : tensor * tensor :=
  let M_next :=
    t_add (t_mul (py_int (Z.of_nat i - 2)) (fst M_vals))
          (t_mul alpha (snd M_vals)) in
  (snd M_vals, M_next).

Definition _M_value (validate_args : bool) (alpha : tensor) (n_dim : nat)
  : result tensor :=
  norm_cdf <- normal_cdf validate_args alpha ;;
  let exp_alpha := t_exp (t_mul (py_float (-0.5)) (t_pow2 alpha)) in
  let M1 := t_mul (t_sqrt (t_mul (Scalar (Fin 2)) (py_float PI))) norm_cdf in
  let M2 := t_add exp_alpha (t_mul alpha M1) in
  let M_vals := (M1, M2) in
  let M_vals := fold_left (M_step alpha) (range 3 (n_dim + 1)) M_vals in
  Ok (snd M_vals).

(** ** Real input tensors *)

(** A 1-dimensional input tensor ([mu]) is a list of reals; its size is the
    length of the list. *)
Definition vget (v : list R) (i : nat) : R := nth i v 0.

(** A 2-dimensional input tensor ([covariance], [y]) of shape
    [(size0, size1)]; [item i j] is meant for [i < size0] and [j < size1]. *)
Record Tensor2 : Type := mkTensor2 {
  size0 : nat;
  size1 : nat;
  item : nat -> nat -> R
}.

(** The tensor of the given shape whose rows are listed. *)
Definition matrix (r c : nat) (rows : list (list R)) : Tensor2 :=
  mkTensor2 r c (fun i j => nth j (nth i rows []) 0).

(** [y.t()]. *)
Definition transpose (a : Tensor2) : Tensor2 :=
  mkTensor2 (size1 a) (size0 a) (fun i j => item a j i).

(** The sum of [f 0], ..., [f (n-1)]. *)
Fixpoint rsum (n : nat) (f : nat -> R) : R :=
  match n with
  | O => 0
  | S m => rsum m f + f m
  end.

Definition delta (i j : nat) : R := if Nat.eqb i j then 1 else 0.

(** ** [torch.linalg.inv] and [torch.logdet] *)

(** [b] is a two-sided inverse of the [n x n] matrix [a]. *)
Definition is_inverse (n : nat) (a b : nat -> nat -> R) : Prop :=
  forall i j, (i < n)%nat -> (j < n)%nat ->
    rsum n (fun k => a i k * b k j) = delta i j /\
    rsum n (fun k => b i k * a k j) = delta i j.

Definition invertible (a : Tensor2) : Prop :=
  exists b, is_inverse (size0 a) (item a) b.

(** [torch.linalg.inv(A)] in exact arithmetic: a shape error when [A] is
    not square, the singular-matrix error when [A] has no inverse, and the
    inverse otherwise.  The floating-point routine raises the
    singular-matrix error when its LU factorisation meets a pivot that is
    exactly zero, as on the all-zeros matrix; on a matrix that is singular
    without such a pivot after rounding it returns a value, which this
    definition does not describe. *)
Definition linalg_inv (a : Tensor2) : result Tensor2 :=
  if negb (size0 a =? size1 a)%nat then Err DimensionMismatch
  else
    match excluded_middle_informative (invertible a) with
    | left H =>
        Ok (mkTensor2 (size0 a) (size1 a)
              (proj1_sig (constructive_indefinite_description _ H)))
    | right _ => Err SingularMatrix
    end.

(** The matrix without its first row and its column [j]. *)
Definition minor (a : nat -> nat -> R) (j : nat) : nat -> nat -> R :=
  fun r c => a (S r) (if (c <? j)%nat then c else S c).

(** The determinant of an [n x n] matrix, expanded along its first row. *)
Fixpoint det (n : nat) (a : nat -> nat -> R) : R :=
  match n with
  | O => 1
  | S m => rsum (S m) (fun j => (-1) ^ j * a O j * det m (minor a j))
  end.

(** [torch.logdet(A)] of a square matrix: the logarithm of its determinant,
    [-inf] when the determinant is zero and NaN when it is negative. *)
Definition logdet (a : Tensor2) : tensor :=
  Scalar (xlog (Fin (det (size0 a) (item a)))).

(** ** [torch.einsum] *)

(** The common size of two dimensions that carry the same subscript: they
    must be equal, or one of them must be 1 (it is then broadcast). *)
Definition broadcast_size (a b : nat) : result nat :=
  if (a =? b)%nat then Ok a
  else if (a =? 1)%nat then Ok b
  else if (b =? 1)%nat then Ok a
  else Err DimensionMismatch.

(** The index into a dimension of size [size] for the subscript value
    [idx]: a dimension of size 1 is read at 0 throughout. *)
Definition bidx (size idx : nat) : nat :=
  if (size =? 1)%nat then O else idx.

(** [torch.einsum("i,ij,j->", a, p, b)]. *)
Definition einsum_i_ij_j (a : list R) (p : Tensor2) (b : list R)
  : result tensor :=
  I <- broadcast_size (length a) (size0 p) ;;
  J <- broadcast_size (size1 p) (length b) ;;
  Ok (Scalar (Fin
    (rsum I (fun i => rsum J (fun j =>
       vget a (bidx (length a) i)
       * item p (bidx (size0 p) i) (bidx (size1 p) j)
       * vget b (bidx (length b) j)))))).

(** [torch.einsum("i,ij,j...->...", a, p, yt)]. *)
Definition einsum_i_ij_jE (a : list R) (p : Tensor2) (yt : Tensor2)
  : result tensor :=
  I <- broadcast_size (length a) (size0 p) ;;
  J <- broadcast_size (size1 p) (size0 yt) ;;
  Ok (Vec (map (fun k => Fin
    (rsum I (fun i => rsum J (fun j =>
       vget a (bidx (length a) i)
       * item p (bidx (size0 p) i) (bidx (size1 p) j)
       * item yt (bidx (size0 yt) j) k))))
    (seq 0 (size1 yt)))).

(** [torch.einsum("...i,ij,j...->...", y, p, yt)]. *)
Definition einsum_Ei_ij_jE (y : Tensor2) (p : Tensor2) (yt : Tensor2)
  : result tensor :=
  I <- broadcast_size (size1 y) (size0 p) ;;
  J <- broadcast_size (size1 p) (size0 yt) ;;
  E <- broadcast_size (size0 y) (size1 yt) ;;
  Ok (Vec (map (fun k => Fin
    (rsum I (fun i => rsum J (fun j =>
       item y (bidx (size0 y) k) (bidx (size1 y) i)
       * item p (bidx (size0 p) i) (bidx (size1 p) j)
       * item yt (bidx (size0 yt) j) (bidx (size1 yt) k)))))
    (seq 0 E))).

(** ** [log_pdf] and [pdf] *)

(** [n_dim] is the 0-dimensional integer tensor [torch.tensor(mu.size(0))];
    it is divided by the float [2.0] and bounds the [range] of
    [_M_value]. *)
Definition log_pdf (validate_args : bool)
  (mu : list R) (covariance : Tensor2) (y : Tensor2) : result tensor :=
  let n_dim := length mu in
  precision <- linalg_inv covariance ;;
  q1 <- einsum_i_ij_j mu precision mu ;;
  q2 <- einsum_i_ij_jE mu precision (transpose y) ;;
  q3 <- einsum_Ei_ij_jE y precision (transpose y) ;;
  let alpha := t_div q2 (t_sqrt q3) in
  M <- _M_value validate_args alpha n_dim ;;
  let term1 :=
    t_mul (t_neg (t_div (py_int (Z.of_nat n_dim)) (py_float 2)))
          (t_log (t_mul (Scalar (Fin 2)) (py_float PI))) in
  let term2 := t_mul (py_float (-0.5)) (logdet covariance) in
  let term3 :=
    t_mul (t_neg (t_div (py_int (Z.of_nat n_dim)) (py_float 2)))
          (t_log q3) in
  let term4 := t_mul (py_float 0.5) (t_sub (t_pow2 alpha) q1) in
  let term5 := t_log M in
  let lpdf := t_add (t_add (t_add (t_add term1 term2) term3) term4) term5 in
  Ok lpdf.

Definition pdf (validate_args : bool)
  (mu : list R) (covariance : Tensor2) (y : Tensor2) : result tensor :=
  lpdf <- log_pdf validate_args mu covariance y ;;
  let pdf := t_exp lpdf in
  Ok pdf.

(** * Definitions used in the statements *)

(** What the loop of [_M_value] does to one element of its operands. *)
Definition x_step (a : xreal) (m : xreal * xreal) (i : nat) : xreal * xreal :=
  (snd m, xadd (xmul (Fin (IZR (Z.of_nat i - 2))) (fst m)) (xmul a (snd m))).

Definition x_M1 (a : xreal) : xreal :=
  xmul (xsqrt (xmul (Fin 2) (Fin PI))) (xcdf a).

Definition x_M2 (a : xreal) : xreal :=
  xadd (xexp (xmul (Fin (-0.5)) (xpow2 a))) (xmul a (x_M1 a)).

(** The element of the result of [_M_value] at an element [a] of [alpha]. *)
Definition M_elem (a : xreal) (n_dim : nat) : xreal :=
  snd (fold_left (x_step a) (range 3 (n_dim + 1)) (x_M1 a, x_M2 a)).

Definition M1_real (a : R) : R := sqrt (2 * PI) * Phi a.

Definition M2_real (a : R) : R := exp (-0.5 * (a * a)) + a * M1_real a.

Definition r_step (a : R) (m : R * R) (i : nat) : R * R :=
  (snd m, IZR (Z.of_nat i - 2) * fst m + a * snd m).

(** The pair [M_vals] once the loop has run over [r]. *)
Definition M_vals_real (a : R) (r : list nat) : R * R :=
  fold_left (r_step a) r (M1_real a, M2_real a).

(** The number [_M_value] returns at the finite [alpha = a]. *)
Definition M_real (a : R) (n_dim : nat) : R :=
  snd (M_vals_real a (range 3 (n_dim + 1))).

(** The function [M] of the spec, in the spec's words:
    [M(1) = sqrt(2 pi) Phi(alpha)], [M(2) = exp(-alpha^2/2) + alpha M(1)],
    and [M(i) = (i-2) M(i-2) + alpha M(i-1)] for [i >= 3].  The spec gives
    no value at 0. *)
Fixpoint RecursiveM_spec (alpha : R) (n : nat) : R :=
  match n with
  | O => 0
  | S p =>
      match p with
      | O => sqrt (2 * PI) * Phi alpha
      | S m =>
          match m with
          | O => exp (- alpha ^ 2 / 2) + alpha * RecursiveM_spec alpha p
          | S _ =>
              (INR n - 2) * RecursiveM_spec alpha m
              + alpha * RecursiveM_spec alpha p
          end
      end
  end.

(** Two sizes are compatible when they are equal or one of them is 1. *)
Definition compatible (a b : nat) : Prop := a = b \/ a = 1%nat \/ b = 1%nat.

(** [u . p . v] for vectors of length [n] and an [n x n] matrix. *)
Definition form (n : nat) (u : nat -> R) (p : nat -> nat -> R)
  (v : nat -> R) : R :=
  rsum n (fun i => rsum n (fun j => u i * p i j * v j)).

Definition alpha_at (q2 q3 : R) : xreal := xdiv (Fin q2) (xsqrt (Fin q3)).

Definition term1 (n : nat) : xreal := Fin (- (INR n / 2) * ln (2 * PI)).

Definition term2 (covariance : Tensor2) : xreal :=
  xmul (Fin (-0.5)) (xlog (Fin (det (size0 covariance) (item covariance)))).

Definition term3 (n : nat) (q3 : R) : xreal :=
  xmul (Fin (- (INR n / 2))) (xlog (Fin q3)).

Definition term4 (alpha : xreal) (q1 : R) : xreal :=
  xmul (Fin 0.5) (xsub (xpow2 alpha) (Fin q1)).

Definition term5 (M : xreal) : xreal := xlog M.

(** The log-density at one point, from the three quadratic forms. *)
Definition log_density (n : nat) (covariance : Tensor2) (q1 q2 q3 : R)
  : xreal :=
  xadd (xadd (xadd (xadd (term1 n) (term2 covariance)) (term3 n q3))
          (term4 (alpha_at q2 q3) q1))
       (term5 (M_elem (alpha_at q2 q3) n)).

(** The first [n] rows and columns of [a] are those of the identity. *)
Definition is_identity (n : nat) (a : nat -> nat -> R) : Prop :=
  forall i j, (i < n)%nat -> (j < n)%nat -> a i j = delta i j.

Definition eye2 : Tensor2 := matrix 2 2 [[1; 0]; [0; 1]].
Definition eye3 : Tensor2 := matrix 3 3 [[1; 0; 0]; [0; 1; 0]; [0; 0; 1]].
Definition zeros2 : Tensor2 := matrix 2 2 [[0; 0]; [0; 0]].

Definition unit_rows_5_3 : Tensor2 :=
  matrix 5 3 [[1; 0; 0]; [0; 1; 0]; [0; 0; 1]; [1; 0; 0]; [0; 1; 0]].

(** Lower and upper bounds of [exp] by repeated squaring in fixed-point
    arithmetic with 15 decimals: [square_down] rounds down and [square_up]
    rounds up. *)
Definition scale : Z := 1000000000000000%Z.

Fixpoint square_down (k : nat) (l : Z) : Z :=
  match k with
  | O => l
  | S k' => square_down k' (l * l / scale)
  end.

Fixpoint square_up (k : nat) (u : Z) : Z :=
  match k with
  | O => u
  | S k' => square_up k' (u * u / scale + 1)
  end.

(** [-mu] on a 1-dimensional input tensor, [-y] and [c * y] on a
    2-dimensional one. *)
Definition neg1 (mu : list R) : list R := map Ropp mu.

Definition neg2 (y : Tensor2) : Tensor2 :=
  mkTensor2 (size0 y) (size1 y) (fun i j => - item y i j).


(** An entry a density can take: NaN, [+inf] or a non-negative number. *)
Definition density_value (x : xreal) : Prop :=
  x = NaN \/ x = PInf \/ exists r, x = Fin r /\ 0 <= r.

(** * Properties *)

(** ** Scalars *)

(** Case analysis on the comparisons of reals an operation makes. *)
Ltac real_cases :=
  repeat match goal with
    | |- context [Req_dec_T ?a ?b] => destruct (Req_dec_T a b)
    | |- context [Rlt_dec ?a ?b] => destruct (Rlt_dec a b)
    | |- context [Rle_dec ?a ?b] => destruct (Rle_dec a b)
    end;
  try reflexivity; try contradiction; try (exfalso; lra).

Lemma xdiv_fin (a b : R) : b <> 0 -> xdiv (Fin a) (Fin b) = Fin (a / b).
Proof. intros Hb. unfold xdiv. real_cases. Qed.

Lemma xdiv_zero_zero : xdiv (Fin 0) (Fin 0) = NaN.
Proof. unfold xdiv. real_cases. Qed.

Lemma xsqrt_fin (a : R) : 0 <= a -> xsqrt (Fin a) = Fin (sqrt a).
Proof. intros Ha. unfold xsqrt. real_cases. Qed.

Lemma xlog_fin (a : R) : 0 < a -> xlog (Fin a) = Fin (ln a).
Proof. intros Ha. unfold xlog. real_cases. Qed.

(** The special values behave as in IEEE 754. *)
Example xadd_inf_minus_inf : xadd PInf NInf = NaN.
Proof. reflexivity. Qed.

Example xadd_fin_minus_inf (a : R) : xadd (Fin a) NInf = NInf.
Proof. reflexivity. Qed.

Example xmul_zero_inf : xmul (Fin 0) PInf = NaN.
Proof. unfold xmul. real_cases. Qed.

Example xmul_neg_inf : xmul (Fin (-2)) PInf = NInf.
Proof. unfold xmul. real_cases. Qed.

Example xdiv_one_zero : xdiv (Fin 1) (Fin 0) = PInf.
Proof. unfold xdiv. real_cases. Qed.

Example xdiv_fin_inf (a : R) : xdiv (Fin a) NInf = Fin 0.
Proof. reflexivity. Qed.

Example xsqrt_negative : xsqrt (Fin (-1)) = NaN.
Proof. unfold xsqrt. real_cases. Qed.

Example xlog_zero : xlog (Fin 0) = NInf.
Proof. unfold xlog. real_cases. Qed.

Example xlog_negative : xlog (Fin (-1)) = NaN.
Proof. unfold xlog. real_cases. Qed.

Example xexp_minus_inf : xexp NInf = Fin 0.
Proof. reflexivity. Qed.

Lemma xadd_nan_r (x : xreal) : xadd x NaN = NaN.
Proof. destruct x; reflexivity. Qed.

Lemma xadd_nan_l (x : xreal) : xadd NaN x = NaN.
Proof. destruct x; reflexivity. Qed.

Lemma xmul_nan_r (x : xreal) : xmul x NaN = NaN.
Proof. destruct x; reflexivity. Qed.

Lemma xsub_nan_l (x : xreal) : xsub NaN x = NaN.
Proof. destruct x; reflexivity. Qed.

Lemma two_pi_pos : 0 < 2 * PI.
Proof. pose proof PI_RGT_0. lra. Qed.

Lemma xsqrt_two_pi : xsqrt (xmul (Fin 2) (Fin PI)) = Fin (sqrt (2 * PI)).
Proof. simpl xmul. apply xsqrt_fin. pose proof two_pi_pos. lra. Qed.

Lemma erf_0 : erf 0 = 0.
Proof. unfold erf. rewrite RiemannInt_P9. lra. Qed.

Lemma Phi_0 : Phi 0 = 1 / 2.
Proof.
  unfold Phi.
  replace ((0 - 0) * / 1 / sqrt 2) with 0.
  - rewrite erf_0. lra.
  - unfold Rdiv. rewrite Rminus_diag, !Rmult_0_l. reflexivity.
Qed.

(** ** [_M_value], element by element *)

Lemma map2_map {A B C D : Type} (f : B -> C -> D) (g : A -> B) (h : A -> C)
  (l : list A) :
  map2 f (map g l) (map h l) = map (fun x => f (g x) (h x)) l.
Proof.
  induction l as [| x l IH]; simpl; [reflexivity | now rewrite IH].
Qed.

Lemma map2_map_r {A C D : Type} (f : A -> C -> D) (h : A -> C) (l : list A) :
  map2 f l (map h l) = map (fun x => f x (h x)) l.
Proof.
  induction l as [| x l IH]; simpl; [reflexivity | now rewrite IH].
Qed.

Lemma M_loop_scalar (a : xreal) (r : list nat) (m : xreal * xreal) :
  fold_left (M_step (Scalar a)) r (Scalar (fst m), Scalar (snd m)) =
  (Scalar (fst (fold_left (x_step a) r m)),
   Scalar (snd (fold_left (x_step a) r m))).
Proof.
  revert m. induction r as [| i r IH]; intros m; simpl.
  - reflexivity.
  - rewrite <- (IH (x_step a m i)). reflexivity.
Qed.

Lemma M_loop_vec (l : list xreal) (r : list nat) (f g : xreal -> xreal) :
  fold_left (M_step (Vec l)) r (Vec (map f l), Vec (map g l)) =
  (Vec (map (fun a => fst (fold_left (x_step a) r (f a, g a))) l),
   Vec (map (fun a => snd (fold_left (x_step a) r (f a, g a))) l)).
Proof.
  revert f g. induction r as [| i r IH]; intros f g; simpl.
  - reflexivity.
  - unfold M_step at 2. simpl.
    rewrite map_map, map2_map_r, map2_map.
    rewrite (IH g (fun a =>
      xadd (xmul (Fin (IZR (Z.of_nat i - 2))) (f a)) (xmul a (g a)))).
    reflexivity.
Qed.

(** A call on a 0-dimensional [alpha]. *)
Lemma M_value_scalar (validate_args : bool) (a : xreal) (n_dim : nat) :
  _M_value validate_args (Scalar a) n_dim =
  if validate_args && is_nan a then Err InvalidValue
  else Ok (Scalar (M_elem a n_dim)).
Proof.
  unfold _M_value, normal_cdf. simpl elements. simpl existsb.
  rewrite orb_false_r.
  destruct (validate_args && is_nan a); simpl; [reflexivity | ].
  f_equal. unfold M_elem.
  pose proof (M_loop_scalar a (range 3 (n_dim + 1)) (x_M1 a, x_M2 a)) as H.
  simpl fst in H. simpl snd in H.
  unfold py_float. etransitivity; [ | apply (f_equal snd H) ]. reflexivity.
Qed.

(** A call on a 1-dimensional [alpha]: the elements are computed
    independently of each other. *)
Lemma M_value_vec (validate_args : bool) (l : list xreal) (n_dim : nat) :
  _M_value validate_args (Vec l) n_dim =
  if validate_args && existsb is_nan l then Err InvalidValue
  else Ok (Vec (map (fun a => M_elem a n_dim) l)).
Proof.
  unfold _M_value, normal_cdf. simpl elements.
  destruct (validate_args && existsb is_nan l); simpl; [reflexivity | ].
  f_equal.
  rewrite !map_map, map2_map_r, map2_map.
  pose proof (M_loop_vec l (range 3 (n_dim + 1)) x_M1 x_M2) as H.
  unfold py_float. etransitivity; [ | apply (f_equal snd H) ].
  reflexivity.
Qed.

(** ** [_M_value] at a finite [alpha] *)

Lemma x_M1_fin (a : R) : x_M1 (Fin a) = Fin (M1_real a).
Proof. unfold x_M1. rewrite xsqrt_two_pi. reflexivity. Qed.

Lemma x_M2_fin (a : R) : x_M2 (Fin a) = Fin (M2_real a).
Proof. unfold x_M2. rewrite x_M1_fin. reflexivity. Qed.

Lemma x_loop_fin (a : R) (r : list nat) (m : R * R) :
  fold_left (x_step (Fin a)) r (Fin (fst m), Fin (snd m)) =
  (Fin (fst (fold_left (r_step a) r m)), Fin (snd (fold_left (r_step a) r m))).
Proof.
  revert m. induction r as [| i r IH]; intros m; simpl.
  - reflexivity.
  - rewrite <- (IH (r_step a m i)). reflexivity.
Qed.

Lemma M_elem_fin (a : R) (n_dim : nat) :
  M_elem (Fin a) n_dim = Fin (M_real a n_dim).
Proof.
  unfold M_elem, M_real, M_vals_real.
  rewrite x_M1_fin, x_M2_fin.
  pose proof (x_loop_fin a (range 3 (n_dim + 1)) (M1_real a, M2_real a)) as H.
  simpl fst in H. simpl snd in H. rewrite H. reflexivity.
Qed.

(** A finite [alpha] passes the validation, and the result is finite. *)
Lemma M_value_real (validate_args : bool) (a : R) (n_dim : nat) :
  _M_value validate_args (Scalar (Fin a)) n_dim =
  Ok (Scalar (Fin (M_real a n_dim))).
Proof.
  rewrite M_value_scalar. simpl is_nan. rewrite andb_false_r.
  now rewrite M_elem_fin.
Qed.

Lemma M_real_1 (a : R) : M_real a 1 = M2_real a.
Proof. reflexivity. Qed.

Lemma M_real_2 (a : R) : M_real a 2 = M2_real a.
Proof. reflexivity. Qed.

Lemma M_real_3 (a : R) : M_real a 3 = M1_real a + a * M2_real a.
Proof.
  unfold M_real, M_vals_real. simpl. lra.
Qed.

Lemma M2_real_eq (a : R) :
  M2_real a = exp (- a ^ 2 / 2) + a * sqrt (2 * PI) * Phi a.
Proof.
  unfold M2_real, M1_real.
  replace (-0.5 * (a * a)) with (- a ^ 2 / 2) by lra.
  ring.
Qed.

Lemma RecursiveM_spec_rec (alpha : R) (n : nat) :
  (3 <= n)%nat ->
  RecursiveM_spec alpha n =
  (INR n - 2) * RecursiveM_spec alpha (n - 2)
  + alpha * RecursiveM_spec alpha (n - 1).
Proof.
  intros Hn.
  destruct n as [| [| [| k]]]; try lia.
  replace (S (S (S k)) - 2)%nat with (S k) by lia.
  replace (S (S (S k)) - 1)%nat with (S (S k)) by lia.
  reflexivity.
Qed.

(** After [k] turns the pair holds [M(k+1)] and [M(k+2)]. *)
Lemma M_vals_real_spec (a : R) (k : nat) :
  M_vals_real a (seq 3 k) =
  (RecursiveM_spec a (S k), RecursiveM_spec a (S (S k))).
Proof.
  induction k as [| k IH].
  - unfold M_vals_real. simpl. f_equal.
    rewrite M2_real_eq.
    replace (- (a * (a * 1)) / 2) with (- a ^ 2 / 2) by (simpl; lra).
    ring.
  - unfold M_vals_real in *.
    rewrite seq_S, fold_left_app, IH. simpl fold_left.
    unfold r_step. simpl fst. simpl snd. f_equal.
    rewrite (RecursiveM_spec_rec a (S (S (S k)))) by lia.
    replace (S (S (S k)) - 2)%nat with (S k) by lia.
    replace (S (S (S k)) - 1)%nat with (S (S k)) by lia.
    f_equal. f_equal.
    rewrite minus_IZR, <- INR_IZR_INZ. reflexivity.
Qed.

(** From dimension 2 on, [_M_value] computes the [M] of the spec. *)
Lemma M_real_spec (a : R) (n : nat) :
  (2 <= n)%nat -> M_real a n = RecursiveM_spec a n.
Proof.
  intros Hn. unfold M_real, range.
  replace (n + 1 - 3)%nat with (n - 2)%nat by lia.
  rewrite M_vals_real_spec.
  replace (S (S (n - 2))) with n by lia. reflexivity.
Qed.

(** The recurrence between calls, from dimension 4 on. *)
Lemma M_value_recurrence_from_4 (validate_args : bool) (a : R) (n : nat) :
  (4 <= n)%nat ->
  exists r r1 r2,
    _M_value validate_args (Scalar (Fin a)) n = Ok (Scalar (Fin r)) /\
    _M_value validate_args (Scalar (Fin a)) (n - 2) = Ok (Scalar (Fin r2)) /\
    _M_value validate_args (Scalar (Fin a)) (n - 1) = Ok (Scalar (Fin r1)) /\
    r = (INR n - 2) * r2 + a * r1.
Proof.
  intros Hn.
  exists (M_real a n), (M_real a (n - 1)), (M_real a (n - 2)).
  rewrite !M_value_real. repeat split.
  rewrite !M_real_spec by lia.
  apply RecursiveM_spec_rec. lia.
Qed.

Lemma M1_real_0 : M1_real 0 = sqrt (2 * PI) / 2.
Proof. unfold M1_real. rewrite Phi_0. lra. Qed.

Lemma M2_real_0 : M2_real 0 = 1.
Proof.
  unfold M2_real. replace (-0.5 * (0 * 0)) with 0 by lra.
  rewrite exp_0. lra.
Qed.

Lemma sqrt_two_pi_neq_2 : sqrt (2 * PI) <> 2.
Proof.
  intros H.
  assert (Hsq : sqrt (2 * PI) * sqrt (2 * PI) = 2 * PI).
  { apply sqrt_sqrt. pose proof two_pi_pos. lra. }
  rewrite H in Hsq. pose proof PI2_1. lra.
Qed.

(** The base case of dimension 2. *)
Lemma M_value_dim_2 (validate_args : bool) (a : R) :
  _M_value validate_args (Scalar (Fin a)) 2 =
  Ok (Scalar (Fin (exp (- a ^ 2 / 2) + a * sqrt (2 * PI) * Phi a))).
Proof. now rewrite M_value_real, M_real_2, M2_real_eq. Qed.

(** C1, at the input [alpha = 0], [n_dim = 1]: [_M_value] returns
    [exp(0) + 0 = 1], the value of [M(2)], and not
    [M(1) = sqrt(2 pi) Phi(0) = sqrt(2 pi) / 2]. *)
Theorem M_value_dim_1_returns_M2 (validate_args : bool) :
  _M_value validate_args (Scalar (Fin 0)) 1 = Ok (Scalar (Fin 1)) /\
  sqrt (2 * PI) * Phi 0 = sqrt (2 * PI) / 2 /\
  1 <> sqrt (2 * PI) * Phi 0.
Proof.
  split; [ | split ].
  - now rewrite M_value_real, M_real_1, M2_real_0.
  - apply M1_real_0.
  - fold (M1_real 0). rewrite M1_real_0.
    pose proof sqrt_two_pi_neq_2. lra.
Qed.

(** C2, at the input [alpha = 0], [n = 3]: the call for dimension 3 returns
    [sqrt(2 pi) / 2], while [(3-2) * _M_value(0, 1) + 0 * _M_value(0, 2)]
    is [1], because the call for dimension 1 returns [M(2)]. *)
Theorem M_value_recurrence_fails_at_3 (validate_args : bool) :
  exists r3 r2 r1,
    _M_value validate_args (Scalar (Fin 0)) 3 = Ok (Scalar (Fin r3)) /\
    _M_value validate_args (Scalar (Fin 0)) 2 = Ok (Scalar (Fin r2)) /\
    _M_value validate_args (Scalar (Fin 0)) 1 = Ok (Scalar (Fin r1)) /\
    r3 = sqrt (2 * PI) / 2 /\
    (3 - 2) * r1 + 0 * r2 = 1 /\
    r3 <> (3 - 2) * r1 + 0 * r2.
Proof.
  exists (M_real 0 3), (M_real 0 2), (M_real 0 1).
  rewrite !M_value_real, M_real_3, M_real_2, M_real_1, M2_real_0, M1_real_0.
  repeat split; try lra.
  pose proof sqrt_two_pi_neq_2. lra.
Qed.

(** C9: for every real [alpha] the calls for dimension 1 and dimension 2
    return the same value, the second accumulator
    [M2 = exp(-alpha^2/2) + alpha * sqrt(2 pi) * Phi(alpha)]: for both
    dimensions the range of the loop is empty. *)
Theorem M_value_dim_1_eq_dim_2 (validate_args : bool) (a : R) :
  _M_value validate_args (Scalar (Fin a)) 1 =
  _M_value validate_args (Scalar (Fin a)) 2 /\
  _M_value validate_args (Scalar (Fin a)) 1 =
  Ok (Scalar (Fin (exp (- a ^ 2 / 2) + a * sqrt (2 * PI) * Phi a))) /\
  range 3 (1 + 1) = [] /\ range 3 (2 + 1) = [].
Proof.
  repeat split.
  now rewrite M_value_real, M_real_1, M2_real_eq.
Qed.

(** The same holds for any tensor [alpha], finite or not, of either rank. *)
Lemma M_value_dim_1_eq_dim_2_tensor (validate_args : bool) (alpha : tensor) :
  _M_value validate_args alpha 1 = _M_value validate_args alpha 2.
Proof. reflexivity. Qed.

(** ** Sums and the matrix routines *)

Lemma rsum_ext (n : nat) (f g : nat -> R) :
  (forall i, (i < n)%nat -> f i = g i) -> rsum n f = rsum n g.
Proof.
  induction n as [| n IH]; intros H; simpl.
  - reflexivity.
  - rewrite IH by (intros i Hi; apply H; lia).
    rewrite (H n) by lia. reflexivity.
Qed.

Lemma rsum_zero (n : nat) (f : nat -> R) :
  (forall i, (i < n)%nat -> f i = 0) -> rsum n f = 0.
Proof.
  induction n as [| n IH]; intros H; simpl.
  - reflexivity.
  - rewrite IH by (intros i Hi; apply H; lia).
    rewrite (H n) by lia. lra.
Qed.

Lemma bidx_lt (n i : nat) : (i < n)%nat -> bidx n i = i.
Proof.
  intros Hi. unfold bidx.
  destruct (Nat.eqb_spec n 1) as [E | _]; [lia | reflexivity].
Qed.

Lemma broadcast_size_same (n : nat) : broadcast_size n n = Ok n.
Proof. unfold broadcast_size. now rewrite Nat.eqb_refl. Qed.

Lemma broadcast_size_compatible (a b : nat) :
  compatible a b -> exists c, broadcast_size a b = Ok c.
Proof.
  unfold compatible, broadcast_size. intros H.
  destruct (Nat.eqb_spec a b); [eauto | ].
  destruct (Nat.eqb_spec a 1); [eauto | ].
  destruct (Nat.eqb_spec b 1); [eauto | ].
  lia.
Qed.

Lemma broadcast_size_incompatible (a b : nat) :
  ~ compatible a b -> broadcast_size a b = Err DimensionMismatch.
Proof.
  unfold compatible, broadcast_size. intros H.
  destruct (Nat.eqb_spec a b); [tauto | ].
  destruct (Nat.eqb_spec a 1); [tauto | ].
  destruct (Nat.eqb_spec b 1); [tauto | ].
  reflexivity.
Qed.

(** The expansion gives the usual determinant of a 2 x 2 matrix. *)
Lemma det_2 (a : nat -> nat -> R) :
  det 2 a = a 0%nat 0%nat * a 1%nat 1%nat - a 0%nat 1%nat * a 1%nat 0%nat.
Proof. simpl. unfold minor. simpl. ring. Qed.

(** A 2 x 2 matrix with an inverse has a non-zero determinant. *)
Lemma det_2_inverse (a b : nat -> nat -> R) :
  is_inverse 2 a b -> det 2 a <> 0.
Proof.
  intros H. rewrite det_2.
  destruct (H 0%nat 0%nat) as [H00 _]; [lia | lia | ].
  destruct (H 1%nat 1%nat) as [H11 _]; [lia | lia | ].
  destruct (H 0%nat 1%nat) as [H01 _]; [lia | lia | ].
  destruct (H 1%nat 0%nat) as [H10 _]; [lia | lia | ].
  unfold delta in *. simpl in *.
  intros Hdet.
  assert (E :
    (a 0%nat 0%nat * a 1%nat 1%nat - a 0%nat 1%nat * a 1%nat 0%nat)
    * (b 0%nat 0%nat * b 1%nat 1%nat - b 0%nat 1%nat * b 1%nat 0%nat) =
    (0 + a 0%nat 0%nat * b 0%nat 0%nat + a 0%nat 1%nat * b 1%nat 0%nat)
    * (0 + a 1%nat 0%nat * b 0%nat 1%nat + a 1%nat 1%nat * b 1%nat 1%nat)
    - (0 + a 0%nat 0%nat * b 0%nat 1%nat + a 0%nat 1%nat * b 1%nat 1%nat)
      * (0 + a 1%nat 0%nat * b 0%nat 0%nat + a 1%nat 1%nat * b 1%nat 0%nat))
    by ring.
  rewrite H00, H11, H01, H10, Hdet in E. lra.
Qed.

Lemma linalg_inv_Ok (a p : Tensor2) :
  linalg_inv a = Ok p ->
  size0 a = size1 a /\ size0 p = size0 a /\ size1 p = size0 a /\
  is_inverse (size0 a) (item a) (item p).
Proof.
  unfold linalg_inv.
  destruct (Nat.eqb_spec (size0 a) (size1 a)) as [E | N]; simpl;
    [ | discriminate ].
  destruct (excluded_middle_informative (invertible a)) as [H | H];
    [ | discriminate ].
  intros Heq. injection Heq as <-. simpl.
  repeat split; try congruence.
  - apply (proj2_sig (constructive_indefinite_description _ H)); assumption.
  - apply (proj2_sig (constructive_indefinite_description _ H)); assumption.
Qed.

Lemma linalg_inv_invertible (a : Tensor2) :
  size0 a = size1 a -> invertible a -> exists p, linalg_inv a = Ok p.
Proof.
  intros E H. unfold linalg_inv.
  destruct (Nat.eqb_spec (size0 a) (size1 a)) as [_ | N]; [ | contradiction ].
  simpl.
  destruct (excluded_middle_informative (invertible a)) as [H' | N].
  - eauto.
  - contradiction.
Qed.

Lemma linalg_inv_singular (a : Tensor2) :
  size0 a = size1 a -> ~ invertible a -> linalg_inv a = Err SingularMatrix.
Proof.
  intros E H. unfold linalg_inv.
  destruct (Nat.eqb_spec (size0 a) (size1 a)) as [_ | N]; [ | contradiction ].
  simpl.
  destruct (excluded_middle_informative (invertible a)) as [H' | N].
  - contradiction.
  - reflexivity.
Qed.

Lemma linalg_inv_not_square (a : Tensor2) :
  size0 a <> size1 a -> linalg_inv a = Err DimensionMismatch.
Proof.
  intros N. unfold linalg_inv.
  destruct (Nat.eqb_spec (size0 a) (size1 a)); [contradiction | reflexivity].
Qed.

(** ** The three contractions on operands of matching shapes *)

Lemma einsum_i_ij_j_form (n : nat) (a : list R) (p : Tensor2) (b : list R) :
  length a = n -> size0 p = n -> size1 p = n -> length b = n ->
  einsum_i_ij_j a p b = Ok (Scalar (Fin (form n (vget a) (item p) (vget b)))).
Proof.
  intros Ha H0 H1 Hb. unfold einsum_i_ij_j.
  rewrite Ha, H0, H1, Hb, broadcast_size_same. simpl.
  do 3 f_equal. unfold form.
  apply rsum_ext; intros i Hi. apply rsum_ext; intros j Hj.
  now rewrite !bidx_lt.
Qed.

Lemma einsum_i_ij_jE_form (n : nat) (a : list R) (p : Tensor2) (y : Tensor2) :
  length a = n -> size0 p = n -> size1 p = n -> size1 y = n ->
  einsum_i_ij_jE a p (transpose y) =
  Ok (Vec (map (fun k => Fin (form n (vget a) (item p) (item y k)))
             (seq 0 (size0 y)))).
Proof.
  intros Ha H0 H1 Hy. unfold einsum_i_ij_jE. simpl size0. simpl size1.
  rewrite Ha, H0, H1, Hy, broadcast_size_same. simpl.
  do 2 f_equal. apply map_ext; intros k. f_equal. unfold form.
  apply rsum_ext; intros i Hi. apply rsum_ext; intros j Hj.
  now rewrite !bidx_lt.
Qed.

Lemma einsum_Ei_ij_jE_form (n : nat) (p : Tensor2) (y : Tensor2) :
  size0 p = n -> size1 p = n -> size1 y = n ->
  einsum_Ei_ij_jE y p (transpose y) =
  Ok (Vec (map (fun k => Fin (form n (item y k) (item p) (item y k)))
             (seq 0 (size0 y)))).
Proof.
  intros H0 H1 Hy. unfold einsum_Ei_ij_jE. simpl size0. simpl size1.
  rewrite H0, H1, Hy, !broadcast_size_same. simpl.
  do 2 f_equal. apply map_ext_in; intros k Hk. f_equal. unfold form.
  apply in_seq in Hk.
  apply rsum_ext; intros i Hi. apply rsum_ext; intros j Hj.
  rewrite !bidx_lt by lia. reflexivity.
Qed.

(** ** The five terms of the log-density *)

Lemma neg_half_dim (n : nat) :
  xneg (xdiv (Fin (IZR (Z.of_nat n))) (Fin 2)) = Fin (- (INR n / 2)).
Proof.
  rewrite xdiv_fin by lra. simpl. now rewrite <- INR_IZR_INZ.
Qed.

Lemma xlog_two_pi : xlog (xmul (Fin 2) (Fin PI)) = Fin (ln (2 * PI)).
Proof. simpl xmul. apply xlog_fin, two_pi_pos. Qed.

(** [log_pdf] once the inversion and the three contractions have
    succeeded: the call raises when the validation of [alpha] fails, and
    returns the log-densities of the points otherwise. *)
Lemma log_pdf_eval (validate_args : bool) (mu : list R)
  (covariance y precision : Tensor2) (q1 : R) (q2 q3 : nat -> R) (p : nat) :
  linalg_inv covariance = Ok precision ->
  einsum_i_ij_j mu precision mu = Ok (Scalar (Fin q1)) ->
  einsum_i_ij_jE mu precision (transpose y) =
    Ok (Vec (map (fun k => Fin (q2 k)) (seq 0 p))) ->
  einsum_Ei_ij_jE y precision (transpose y) =
    Ok (Vec (map (fun k => Fin (q3 k)) (seq 0 p))) ->
  log_pdf validate_args mu covariance y =
  if validate_args
     && existsb is_nan (map (fun k => alpha_at (q2 k) (q3 k)) (seq 0 p))
  then Err InvalidValue
  else Ok (Vec (map (fun k =>
                  log_density (length mu) covariance q1 (q2 k) (q3 k))
               (seq 0 p))).
Proof.
  intros Hinv H1 H2 H3. unfold log_pdf.
  rewrite Hinv. cbn [bind]. rewrite H1. cbn [bind].
  rewrite H2. cbn [bind]. rewrite H3. cbn [bind].
  unfold t_div, t_sqrt, t_map, t_zip.
  rewrite map_map, map2_map.
  rewrite M_value_vec.
  change (map (fun k => xdiv (Fin (q2 k)) (xsqrt (Fin (q3 k)))) (seq 0 p))
    with (map (fun k => alpha_at (q2 k) (q3 k)) (seq 0 p)).
  destruct (validate_args && existsb is_nan _); cbn [bind]; [reflexivity | ].
  f_equal.
  unfold t_add, t_mul, t_sub, t_neg, t_log, t_pow2, t_map, t_zip,
    py_int, py_float, logdet.
  rewrite neg_half_dim, xlog_two_pi.
  rewrite !map_map. rewrite !map2_map.
  reflexivity.
Qed.

(** ** [log_pdf] on operands of matching shapes *)

Lemma nth_map_seq {A : Type} (f : nat -> A) (p k : nat) (d : A) :
  (k < p)%nat -> nth k (map f (seq 0 p)) d = f k.
Proof.
  intros Hk.
  rewrite (nth_indep _ d (f O)) by (now rewrite length_map, length_seq).
  rewrite map_nth, seq_nth by assumption. reflexivity.
Qed.

Lemma existsb_is_nan_false (f : nat -> xreal) (p : nat) :
  (forall k, (k < p)%nat -> f k <> NaN) ->
  existsb is_nan (map f (seq 0 p)) = false.
Proof.
  intros H. apply not_true_is_false. intros E.
  apply existsb_exists in E. destruct E as [x [Hin Hx]].
  apply in_map_iff in Hin. destruct Hin as [k [<- Hk]].
  apply in_seq in Hk.
  destruct (f k) eqn:Efk; try discriminate.
  apply (H k); [lia | assumption].
Qed.

Lemma existsb_is_nan_true (f : nat -> xreal) (p k : nat) :
  (k < p)%nat -> f k = NaN -> existsb is_nan (map f (seq 0 p)) = true.
Proof.
  intros Hk E. apply existsb_exists. exists NaN. split; [ | reflexivity ].
  apply in_map_iff. exists k. split; [assumption | ].
  apply in_seq. lia.
Qed.

Lemma log_pdf_matching (validate_args : bool) (mu : list R)
  (covariance y precision : Tensor2) (n : nat) :
  length mu = n -> size0 covariance = n -> size1 y = n ->
  linalg_inv covariance = Ok precision ->
  log_pdf validate_args mu covariance y =
  if validate_args
     && existsb is_nan
          (map (fun k =>
                  alpha_at (form n (vget mu) (item precision) (item y k))
                           (form n (item y k) (item precision) (item y k)))
               (seq 0 (size0 y)))
  then Err InvalidValue
  else Ok (Vec (map (fun k =>
                  log_density n covariance
                    (form n (vget mu) (item precision) (vget mu))
                    (form n (vget mu) (item precision) (item y k))
                    (form n (item y k) (item precision) (item y k)))
               (seq 0 (size0 y)))).
Proof.
  intros Hmu Hc Hy Hinv.
  destruct (linalg_inv_Ok _ _ Hinv) as (_ & Hp0 & Hp1 & _).
  rewrite Hc in Hp0, Hp1.
  rewrite (log_pdf_eval validate_args mu covariance y precision
             (form n (vget mu) (item precision) (vget mu))
             (fun k => form n (vget mu) (item precision) (item y k))
             (fun k => form n (item y k) (item precision) (item y k))
             (size0 y)); try assumption.
  - now rewrite Hmu.
  - now apply einsum_i_ij_j_form.
  - now apply einsum_i_ij_jE_form.
  - now apply einsum_Ei_ij_jE_form.
Qed.

(** The five terms: for [mu] of length [n], an invertible [n x n]
    covariance with inverse [precision] and [y] of shape [(n_points, n)], with
    [q1 = mu.precision.mu], [q2_k = mu.precision.y_k],
    [q3_k = y_k.precision.y_k] and [alpha_k = q2_k / sqrt(q3_k)], the call
    returns a vector whose entry [k] is
    [term1 + term2 + term3_k + term4_k + term5_k], where [term5_k] is the
    logarithm of [M_k], the value [_M_value] returns at [alpha_k] and [n];
    from dimension 2 on, and at a finite [alpha_k], that value is the [M(n)]
    of the spec.  The call returns whenever [alpha] passes the validation of
    the distribution (no entry is NaN, or the validation is switched
    off). *)
Theorem log_pdf_five_terms (validate_args : bool) (mu : list R)
  (covariance y precision : Tensor2) (n : nat) :
  length mu = n -> size0 covariance = n -> size1 covariance = n ->
  size1 y = n ->
  linalg_inv covariance = Ok precision ->
  let q1 := form n (vget mu) (item precision) (vget mu) in
  let q2 := fun k => form n (vget mu) (item precision) (item y k) in
  let q3 := fun k => form n (item y k) (item precision) (item y k) in
  let alpha := fun k => xdiv (Fin (q2 k)) (xsqrt (Fin (q3 k))) in
  (validate_args = false \/
   forall k, (k < size0 y)%nat -> alpha k <> NaN) ->
  is_inverse n (item covariance) (item precision) /\
  exists l,
    log_pdf validate_args mu covariance y = Ok (Vec l) /\
    length l = size0 y /\
    forall k, (k < size0 y)%nat ->
      exists M_k,
        _M_value validate_args (Scalar (alpha k)) n = Ok (Scalar M_k) /\
        nth k l NaN =
        xadd (xadd (xadd (xadd (term1 n) (term2 covariance))
                      (term3 n (q3 k)))
                (term4 (alpha k) q1))
             (term5 M_k) /\
        (forall a, alpha k = Fin a -> (2 <= n)%nat ->
           M_k = Fin (RecursiveM_spec a n)).
Proof.
  intros Hmu Hc0 Hc1 Hy Hinv q1 q2 q3 alpha Hvalid.
  split.
  { destruct (linalg_inv_Ok _ _ Hinv) as (_ & _ & _ & H).
    now rewrite Hc0 in H. }
  rewrite (log_pdf_matching validate_args mu covariance y precision n)
    by assumption.
  change (fun k => alpha_at (form n (vget mu) (item precision) (item y k))
                   (form n (item y k) (item precision) (item y k)))
    with alpha.
  assert (Hpass :
    validate_args && existsb is_nan (map alpha (seq 0 (size0 y))) = false).
  { destruct Hvalid as [-> | Hnan]; [reflexivity | ].
    rewrite existsb_is_nan_false by assumption. apply andb_false_r. }
  rewrite Hpass.
  eexists. split; [reflexivity | ].
  split; [now rewrite length_map, length_seq | ].
  intros k Hk. exists (M_elem (alpha k) n). split.
  - rewrite M_value_scalar.
    destruct Hvalid as [-> | Hnan]; [reflexivity | ].
    specialize (Hnan k Hk).
    destruct (alpha k); try reflexivity; try (now rewrite andb_false_r).
    now elim Hnan.
  - split.
    + rewrite nth_map_seq by assumption. reflexivity.
    + intros a Ha Hn. rewrite Ha, M_elem_fin. now rewrite M_real_spec.
Qed.

(** ** [log_pdf] on operands of any shape *)

Lemma compatible_sym (a b : nat) : compatible a b -> compatible b a.
Proof. unfold compatible. intuition. Qed.

Lemma compatible_dec (a b : nat) : {compatible a b} + {~ compatible a b}.
Proof.
  unfold compatible.
  destruct (Nat.eq_dec a b); [now left; left | ].
  destruct (Nat.eq_dec a 1); [now left; right; left | ].
  destruct (Nat.eq_dec b 1); [now left; right; right | ].
  right. tauto.
Qed.

(** With an inverted covariance, the operands of the three contractions
    either fail to broadcast, and the call raises the shape error, ... *)
Lemma log_pdf_incompatible (validate_args : bool) (mu : list R)
  (covariance y precision : Tensor2) :
  linalg_inv covariance = Ok precision ->
  ~ compatible (length mu) (size0 covariance) \/
  ~ compatible (size0 covariance) (size1 y) ->
  log_pdf validate_args mu covariance y = Err DimensionMismatch.
Proof.
  intros Hinv H.
  destruct (linalg_inv_Ok _ _ Hinv) as (_ & Hp0 & Hp1 & _).
  unfold log_pdf. rewrite Hinv. cbn [bind].
  destruct (compatible_dec (length mu) (size0 covariance)) as [Hc | Hc].
  - destruct H as [H | H]; [contradiction | ].
    unfold einsum_i_ij_j. rewrite Hp0, Hp1.
    destruct (broadcast_size_compatible _ _ Hc) as [I ->].
    destruct (broadcast_size_compatible _ _ (compatible_sym _ _ Hc))
      as [J ->].
    cbn [bind].
    unfold einsum_i_ij_jE. rewrite Hp0, Hp1.
    destruct (broadcast_size_compatible _ _ Hc) as [I' ->].
    cbn [bind]. simpl size0.
    rewrite (broadcast_size_incompatible _ _ H). reflexivity.
  - unfold einsum_i_ij_j. rewrite Hp0.
    rewrite (broadcast_size_incompatible _ _ Hc). reflexivity.
Qed.

(** ... or broadcast, and the call goes on to the validation of [alpha]. *)
Lemma log_pdf_compatible (validate_args : bool) (mu : list R)
  (covariance y precision : Tensor2) :
  linalg_inv covariance = Ok precision ->
  compatible (length mu) (size0 covariance) ->
  compatible (size0 covariance) (size1 y) ->
  exists (q1 : R) (q2 q3 : nat -> R),
    log_pdf validate_args mu covariance y =
    if validate_args
       && existsb is_nan
            (map (fun k => alpha_at (q2 k) (q3 k)) (seq 0 (size0 y)))
    then Err InvalidValue
    else Ok (Vec (map (fun k =>
                    log_density (length mu) covariance q1 (q2 k) (q3 k))
                 (seq 0 (size0 y)))).
Proof.
  intros Hinv Hm Hy.
  destruct (linalg_inv_Ok _ _ Hinv) as (_ & Hp0 & Hp1 & _).
  destruct (broadcast_size_compatible _ _ Hm) as [I HI].
  destruct (broadcast_size_compatible _ _ (compatible_sym _ _ Hm))
    as [J HJ].
  destruct (broadcast_size_compatible _ _ Hy) as [J' HJ'].
  destruct (broadcast_size_compatible _ _ (compatible_sym _ _ Hy))
    as [I' HI'].
  eexists. eexists. eexists.
  apply log_pdf_eval with (precision := precision).
  - assumption.
  - unfold einsum_i_ij_j. rewrite Hp0, Hp1, HI, HJ. cbn [bind].
    reflexivity.
  - unfold einsum_i_ij_jE. simpl size0. simpl size1.
    rewrite Hp0, Hp1, HI, HJ'. cbn [bind].
    f_equal. f_equal. apply map_ext. intros k.
    instantiate (1 := fun k => _). reflexivity.
  - unfold einsum_Ei_ij_jE. simpl size0. simpl size1.
    rewrite Hp0, Hp1, HI', HJ', broadcast_size_same. cbn [bind].
    f_equal. f_equal. apply map_ext. intros k.
    instantiate (1 := fun k => _). reflexivity.
Qed.

(** Whatever the shapes, a call that returns gives a vector with one entry
    per row of [y]. *)
Lemma log_pdf_lengths (validate_args : bool) (mu : list R)
  (covariance y : Tensor2) (t : tensor) :
  log_pdf validate_args mu covariance y = Ok t ->
  exists l, t = Vec l /\ length l = size0 y.
Proof.
  intros H.
  destruct (linalg_inv covariance) as [precision | e] eqn:Hinv;
    [ | unfold log_pdf in H; rewrite Hinv in H; discriminate ].
  destruct (compatible_dec (length mu) (size0 covariance)) as [Hm | Hm];
    [ | rewrite (log_pdf_incompatible _ _ _ _ _ Hinv (or_introl Hm)) in H;
        discriminate ].
  destruct (compatible_dec (size0 covariance) (size1 y)) as [Hy | Hy];
    [ | rewrite (log_pdf_incompatible _ _ _ _ _ Hinv (or_intror Hy)) in H;
        discriminate ].
  destruct (log_pdf_compatible validate_args _ _ _ _ Hinv Hm Hy)
    as (q1 & q2 & q3 & E).
  rewrite E in H.
  destruct (validate_args && existsb is_nan _); [discriminate | ].
  injection H as <-. eexists. split; [reflexivity | ].
  now rewrite length_map, length_seq.
Qed.

(** An error of the inversion ends the call. *)
Lemma log_pdf_inv_error (validate_args : bool) (mu : list R)
  (covariance y : Tensor2) (e : error) :
  linalg_inv covariance = Err e ->
  log_pdf validate_args mu covariance y = Err e.
Proof. intros H. unfold log_pdf. now rewrite H. Qed.

(** The errors of [log_pdf] among the three of the model: the inversion's
    own, the shape error of a contraction, or the failed validation of
    [alpha]. *)
Lemma log_pdf_errors (validate_args : bool) (mu : list R)
  (covariance y : Tensor2) (e : error) :
  log_pdf validate_args mu covariance y = Err e ->
  linalg_inv covariance = Err e \/
  e = DimensionMismatch \/
  (e = InvalidValue /\ validate_args = true).
Proof.
  intros H.
  destruct (linalg_inv covariance) as [precision | e'] eqn:Hinv.
  - right.
    destruct (compatible_dec (length mu) (size0 covariance)) as [Hm | Hm];
      [ | rewrite (log_pdf_incompatible _ _ _ _ _ Hinv (or_introl Hm)) in H;
          left; congruence ].
    destruct (compatible_dec (size0 covariance) (size1 y)) as [Hy | Hy];
      [ | rewrite (log_pdf_incompatible _ _ _ _ _ Hinv (or_intror Hy)) in H;
          left; congruence ].
    destruct (log_pdf_compatible validate_args _ _ _ _ Hinv Hm Hy)
      as (q1 & q2 & q3 & E).
    rewrite E in H. right.
    destruct validate_args; [ | discriminate ].
    destruct (existsb is_nan _); [ | discriminate ].
    cbn [andb] in H. injection H as <-. split; reflexivity.
  - left. rewrite (log_pdf_inv_error _ _ _ _ _ Hinv) in H.
    injection H as ->. reflexivity.
Qed.

(** ** [pdf] *)

(** C5: when [log_pdf] returns, [pdf] returns the elementwise exponential of
    its result; when [log_pdf] raises, [pdf] raises the same error; and
    [pdf] raises in no other case. *)
Theorem pdf_exp_log_pdf (validate_args : bool) (mu : list R)
  (covariance y : Tensor2) :
  match log_pdf validate_args mu covariance y with
  | Ok t =>
      exists l, t = Vec l /\
        pdf validate_args mu covariance y = Ok (Vec (map xexp l))
  | Err e => pdf validate_args mu covariance y = Err e
  end.
Proof.
  unfold pdf.
  destruct (log_pdf validate_args mu covariance y) as [t | e] eqn:H.
  - destruct (log_pdf_lengths _ _ _ _ _ H) as (l & -> & _).
    exists l. split; reflexivity.
  - reflexivity.
Qed.

(** ** The identity and the zero matrix *)

Lemma rsum_delta_l (n i : nat) (f : nat -> R) :
  (i < n)%nat -> rsum n (fun k => delta i k * f k) = f i.
Proof.
  induction n as [| n IH]; intros Hi; [lia | ].
  simpl. unfold delta at 2.
  destruct (Nat.eqb_spec i n) as [-> | N].
  - rewrite rsum_zero; [lra | ].
    intros k Hk. unfold delta.
    destruct (Nat.eqb_spec n k); [lia | lra].
  - rewrite IH by lia. lra.
Qed.

Lemma identity_is_inverse (n : nat) (a : nat -> nat -> R) :
  is_identity n a -> is_inverse n a delta.
Proof.
  intros Ha i j Hi Hj. split.
  - rewrite (rsum_ext n _ (fun k => delta i k * delta k j)).
    + now rewrite rsum_delta_l.
    + intros k Hk. now rewrite Ha.
  - rewrite (rsum_ext n _ (fun k => delta i k * delta k j)).
    + now rewrite rsum_delta_l.
    + intros k Hk. now rewrite Ha.
Qed.

Lemma identity_inverse (n : nat) (a b : nat -> nat -> R) :
  is_identity n a -> is_inverse n a b -> is_identity n b.
Proof.
  intros Ha Hb i j Hi Hj.
  destruct (Hb i j Hi Hj) as [H _].
  rewrite (rsum_ext n _ (fun k => delta i k * b k j)) in H.
  - now rewrite rsum_delta_l in H.
  - intros k Hk. now rewrite Ha.
Qed.

(** The inversion of an identity matrix returns an identity matrix. *)
Lemma linalg_inv_identity (a : Tensor2) (n : nat) :
  size0 a = n -> size1 a = n -> is_identity n (item a) ->
  exists p, linalg_inv a = Ok p /\ is_identity n (item p).
Proof.
  intros H0 H1 Ha.
  destruct (linalg_inv_invertible a) as [p Hp].
  - congruence.
  - exists delta. rewrite H0. now apply identity_is_inverse.
  - exists p. split; [assumption | ].
    destruct (linalg_inv_Ok _ _ Hp) as (_ & _ & _ & Hinv).
    rewrite H0 in Hinv. now apply (identity_inverse n (item a)).
Qed.

Lemma zero_not_invertible (a : Tensor2) :
  (0 < size0 a)%nat ->
  (forall i j, (i < size0 a)%nat -> (j < size0 a)%nat -> item a i j = 0) ->
  ~ invertible a.
Proof.
  intros Hn Hz [b Hb].
  destruct (Hb O O Hn Hn) as [H _].
  rewrite rsum_zero in H.
  - unfold delta in H. simpl in H. lra.
  - intros k Hk. rewrite Hz by assumption. lra.
Qed.

(** With the identity in the middle the form is the dot product. *)
Lemma form_identity (n : nat) (u : nat -> R) (p : nat -> nat -> R)
  (v : nat -> R) :
  is_identity n p -> form n u p v = rsum n (fun i => u i * v i).
Proof.
  intros Hp. unfold form. apply rsum_ext; intros i Hi.
  rewrite (rsum_ext n _ (fun j => delta i j * (u i * v j))).
  - now rewrite rsum_delta_l.
  - intros j Hj. rewrite Hp by assumption. ring.
Qed.

Lemma form_zero_r (n : nat) (u : nat -> R) (p : nat -> nat -> R)
  (v : nat -> R) :
  (forall j, (j < n)%nat -> v j = 0) -> form n u p v = 0.
Proof.
  intros Hv. unfold form.
  apply rsum_zero; intros i Hi. apply rsum_zero; intros j Hj.
  rewrite Hv by assumption. ring.
Qed.

Lemma form_zero_l (n : nat) (u : nat -> R) (p : nat -> nat -> R)
  (v : nat -> R) :
  (forall i, (i < n)%nat -> u i = 0) -> form n u p v = 0.
Proof.
  intros Hu. unfold form.
  apply rsum_zero; intros i Hi. apply rsum_zero; intros j Hj.
  rewrite Hu by assumption. ring.
Qed.

Lemma eye2_identity : is_identity 2 (item eye2).
Proof.
  intros i j Hi Hj.
  destruct i as [| [| i]]; destruct j as [| [| j]]; try lia; reflexivity.
Qed.

Lemma eye3_identity : is_identity 3 (item eye3).
Proof.
  intros i j Hi Hj.
  destruct i as [| [| [| i]]]; destruct j as [| [| [| j]]]; try lia;
    reflexivity.
Qed.

Lemma zeros2_not_invertible : ~ invertible zeros2.
Proof.
  apply zero_not_invertible.
  - simpl. lia.
  - intros i j Hi Hj. simpl in Hi, Hj.
    destruct i as [| [| i]]; destruct j as [| [| j]]; try lia; reflexivity.
Qed.

Lemma det_eye2 : det 2 (item eye2) = 1.
Proof. unfold eye2, matrix. simpl. unfold minor. simpl. lra. Qed.

Lemma alpha_at_pos (q2 q3 : R) :
  0 < q3 -> alpha_at q2 q3 = Fin (q2 / sqrt q3).
Proof.
  intros H. unfold alpha_at.
  rewrite xsqrt_fin by lra.
  apply xdiv_fin. pose proof (sqrt_lt_R0 q3 H). lra.
Qed.

Lemma alpha_at_zero : alpha_at 0 0 = NaN.
Proof.
  unfold alpha_at. rewrite xsqrt_fin by lra. rewrite sqrt_0.
  apply xdiv_zero_zero.
Qed.

(** ** Errors *)

(** In exact arithmetic: with a singular covariance -- square, without
    inverse -- the inversion raises the singular-matrix error; [log_pdf]
    ends with that error, and so does [pdf]: neither catches it and neither
    returns a value.  (Which singular matrices the floating-point inversion
    rejects is outside the model, see [linalg_inv].) *)
Theorem log_pdf_singular (validate_args : bool) (mu : list R)
  (covariance y : Tensor2) :
  size0 covariance = size1 covariance ->
  ~ invertible covariance ->
  linalg_inv covariance = Err SingularMatrix /\
  log_pdf validate_args mu covariance y = Err SingularMatrix /\
  pdf validate_args mu covariance y = Err SingularMatrix.
Proof.
  intros Hsq Hsing.
  pose proof (linalg_inv_singular covariance Hsq Hsing) as Hinv.
  pose proof (log_pdf_inv_error validate_args mu covariance y _ Hinv) as H.
  repeat split; try assumption.
  unfold pdf. now rewrite H.
Qed.

(** The all-zeros 2 x 2 covariance. *)
Lemma log_pdf_singular_witness :
  linalg_inv zeros2 = Err SingularMatrix /\
  log_pdf true [0; 0] zeros2 (matrix 1 2 [[1; 0]]) = Err SingularMatrix /\
  pdf true [0; 0] zeros2 (matrix 1 2 [[1; 0]]) = Err SingularMatrix.
Proof.
  apply (log_pdf_singular true [0; 0] zeros2 (matrix 1 2 [[1; 0]])).
  - reflexivity.
  - exact zeros2_not_invertible.
Defined.

(** C7 as stated fails: with [mu] of length 3, the all-zeros 2 x 2
    covariance and [y] of shape (4, 2) the shapes are inconsistent, yet the
    call ends with the singular-matrix error of the inversion, which runs
    before any contraction. *)
Lemma log_pdf_mismatch_singular_first :
  length [1; 2; 3] <> size0 zeros2 /\
  log_pdf true [1; 2; 3] zeros2
    (matrix 4 2 [[1; 0]; [0; 1]; [1; 0]; [0; 1]]) = Err SingularMatrix /\
  log_pdf true [1; 2; 3] zeros2
    (matrix 4 2 [[1; 0]; [0; 1]; [1; 0]; [0; 1]]) <> Err DimensionMismatch.
Proof.
  assert (H : log_pdf true [1; 2; 3] zeros2
                (matrix 4 2 [[1; 0]; [0; 1]; [1; 0]; [0; 1]]) =
              Err SingularMatrix).
  { apply log_pdf_inv_error, linalg_inv_singular;
      [reflexivity | exact zeros2_not_invertible]. }
  split; [simpl; lia | ]. split; [exact H | ].
  rewrite H. discriminate.
Qed.

(** C7, amended: with a square, invertible covariance of dimension [n] the
    call ends with the shape error exactly when the length of [mu] or the
    number of columns of [y] does not broadcast against [n]; [pdf] then ends
    with the same error. *)
Theorem log_pdf_dimension_mismatch (validate_args : bool) (mu : list R)
  (covariance y : Tensor2) :
  size0 covariance = size1 covariance ->
  invertible covariance ->
  (~ compatible (length mu) (size0 covariance) \/
   ~ compatible (size0 covariance) (size1 y) <->
   log_pdf validate_args mu covariance y = Err DimensionMismatch) /\
  (log_pdf validate_args mu covariance y = Err DimensionMismatch ->
   pdf validate_args mu covariance y = Err DimensionMismatch).
Proof.
  intros Hsq Hinv.
  destruct (linalg_inv_invertible covariance Hsq Hinv) as [p Hp].
  split; [split | ].
  - now apply log_pdf_incompatible with (precision := p).
  - intros H.
    destruct (compatible_dec (length mu) (size0 covariance)) as [Hm | Hm];
      [ | now left ].
    destruct (compatible_dec (size0 covariance) (size1 y)) as [Hy | Hy];
      [ | now right ].
    destruct (log_pdf_compatible validate_args _ _ _ _ Hp Hm Hy)
      as (q1 & q2 & q3 & E).
    rewrite E in H.
    destruct (validate_args && existsb is_nan _); discriminate.
  - intros H. unfold pdf. now rewrite H.
Qed.

Lemma eye3_invertible : invertible eye3.
Proof.
  exists delta. apply identity_is_inverse, eye3_identity.
Qed.

Lemma eye2_invertible : invertible eye2.
Proof.
  exists delta. apply identity_is_inverse, eye2_identity.
Qed.

(** [mu] of length 3, the 3 x 3 identity covariance and [y] of shape
    (4, 2). *)
Lemma log_pdf_dimension_mismatch_witness :
  log_pdf true [1; 2; 3] eye3
    (matrix 4 2 [[1; 0]; [0; 1]; [1; 0]; [0; 1]]) = Err DimensionMismatch.
Proof.
  apply (proj1 (log_pdf_dimension_mismatch true [1; 2; 3] eye3
           (matrix 4 2 [[1; 0]; [0; 1]; [1; 0]; [0; 1]])
           eq_refl eye3_invertible)).
  right. unfold compatible. simpl. lia.
Defined.

(** A dimension of size 1 is broadcast by the contractions: with [mu] of
    length 1, the 2 x 2 identity covariance and [y = [[1, 0]]] the call
    raises nothing, although the length of [mu] is not the dimension of the
    covariance. *)
Lemma log_pdf_broadcasts_size_1 :
  length [0] <> size0 eye2 /\
  exists l, log_pdf true [0] eye2 (matrix 1 2 [[1; 0]]) = Ok (Vec l).
Proof.
  split; [simpl; lia | ].
  destruct (linalg_inv_identity eye2 2 eq_refl eq_refl eye2_identity)
    as (p & Hinv & Hp).
  destruct (linalg_inv_Ok _ _ Hinv) as (_ & Hp0 & Hp1 & _).
  change (size0 eye2) with 2%nat in Hp0, Hp1.
  assert (H1 : exists q1, einsum_i_ij_j [0] p [0] = Ok (Scalar (Fin q1))).
  { unfold einsum_i_ij_j. rewrite Hp0, Hp1. simpl. eauto. }
  destruct H1 as [q1 H1].
  assert (H2 : einsum_i_ij_jE [0] p (transpose (matrix 1 2 [[1; 0]])) =
               Ok (Vec (map (fun k => Fin 0) (seq 0 1)))).
  { unfold einsum_i_ij_jE. rewrite Hp0, Hp1. simpl.
    unfold bidx, vget. simpl. do 3 f_equal. f_equal. lra. }
  assert (H3 : einsum_Ei_ij_jE (matrix 1 2 [[1; 0]]) p
                 (transpose (matrix 1 2 [[1; 0]])) =
               Ok (Vec (map (fun k => Fin 1) (seq 0 1)))).
  { unfold einsum_Ei_ij_jE. rewrite Hp0, Hp1. simpl.
    unfold bidx. simpl. do 3 f_equal. f_equal.
    rewrite !Hp by lia. unfold delta. simpl. lra. }
  rewrite (log_pdf_eval true [0] eye2 (matrix 1 2 [[1; 0]]) p q1
             (fun _ => 0) (fun _ => 1) 1 Hinv H1 H2 H3).
  rewrite existsb_is_nan_false.
  - simpl. eauto.
  - intros k _. rewrite alpha_at_pos by lra. discriminate.
Qed.

(** ** The shape of the result *)

(** C8: for a valid input -- [mu] of length [n], an invertible [n x n]
    covariance, [y] of shape [(n_points, n)] whose rows have a positive
    quadratic form [q3], as every non-zero row has when the covariance is
    positive definite -- the call returns a vector of length [n_points]. *)
Theorem log_pdf_length_n_points (validate_args : bool) (mu : list R)
  (covariance y precision : Tensor2) (n n_points : nat) :
  length mu = n -> size0 covariance = n -> size1 covariance = n ->
  size0 y = n_points -> size1 y = n ->
  linalg_inv covariance = Ok precision ->
  (forall k, (k < n_points)%nat ->
     0 < form n (item y k) (item precision) (item y k)) ->
  exists l,
    log_pdf validate_args mu covariance y = Ok (Vec l) /\
    length l = n_points.
Proof.
  intros Hmu Hc0 Hc1 Hy0 Hy1 Hinv Hq3.
  rewrite (log_pdf_matching validate_args mu covariance y precision n)
    by assumption.
  rewrite Hy0, existsb_is_nan_false, andb_false_r.
  - eexists. split; [reflexivity | ].
    now rewrite length_map, length_seq.
  - intros k Hk. rewrite alpha_at_pos by now apply Hq3.
    discriminate.
Qed.

(** [mu] of length 3, the 3 x 3 identity covariance and five unit vectors
    as the rows of [y]. *)
Lemma log_pdf_length_n_points_witness :
  exists l,
    log_pdf true [1; 2; 3] eye3 unit_rows_5_3 = Ok (Vec l) /\
    length l = 5%nat.
Proof.
  destruct (linalg_inv_identity eye3 3 eq_refl eq_refl eye3_identity)
    as (p & Hinv & Hp).
  apply (log_pdf_length_n_points true [1; 2; 3] eye3 unit_rows_5_3 p 3 5
           eq_refl eq_refl eq_refl eq_refl eq_refl Hinv).
  intros k Hk. rewrite form_identity by assumption.
  destruct k as [| [| [| [| [| k]]]]]; try lia; simpl; lra.
Defined.

(** The instance of the spec: [mu] of length 3, the 3 x 3 identity
    covariance and any [y] of shape (5, 3) with unit-norm rows. *)
Lemma log_pdf_length_5 (validate_args : bool) (mu : list R) (y : Tensor2) :
  length mu = 3%nat -> size0 y = 5%nat -> size1 y = 3%nat ->
  (forall k, (k < 5)%nat ->
     rsum 3 (fun j => item y k j * item y k j) = 1) ->
  exists l,
    log_pdf validate_args mu eye3 y = Ok (Vec l) /\ length l = 5%nat.
Proof.
  intros Hmu Hy0 Hy1 Hunit.
  destruct (linalg_inv_identity eye3 3 eq_refl eq_refl eye3_identity)
    as (p & Hinv & Hp).
  apply (log_pdf_length_n_points validate_args mu eye3 y p 3 5);
    try assumption; try reflexivity.
  intros k Hk. rewrite form_identity by assumption.
  rewrite Hunit by assumption. lra.
Qed.

(** ** A row of zeros in [y] *)

Lemma log_density_nan_alpha (n : nat) (covariance : Tensor2) (q1 : R) :
  log_density n covariance q1 0 0 = NaN.
Proof.
  unfold log_density. rewrite alpha_at_zero.
  unfold term4. simpl xpow2. rewrite xsub_nan_l, xmul_nan_r, xadd_nan_r.
  apply xadd_nan_l.
Qed.

(** C10 as stated fails under the default validation of the distribution:
    with the 2 x 2 identity covariance and [y = [[1, 0], [0, 0]]] the call
    raises the validation error of [Normal(0, 1).cdf] and returns
    nothing. *)
Lemma log_pdf_zero_row_raises :
  invertible eye2 /\
  log_pdf true [0; 0] eye2 (matrix 2 2 [[1; 0]; [0; 0]]) = Err InvalidValue.
Proof.
  split; [exact eye2_invertible | ].
  destruct (linalg_inv_identity eye2 2 eq_refl eq_refl eye2_identity)
    as (p & Hinv & Hp).
  rewrite (log_pdf_matching true [0; 0] eye2 (matrix 2 2 [[1; 0]; [0; 0]])
             p 2 eq_refl eq_refl eq_refl Hinv).
  rewrite (existsb_is_nan_true _ _ 1); [reflexivity | simpl; lia | ].
  rewrite !form_zero_r.
  - apply alpha_at_zero.
  - intros [| [| j]] Hj; try lia; reflexivity.
  - intros [| [| j]] Hj; try lia; reflexivity.
Qed.

(** C10, amended: for [mu] of length [n], an invertible [n x n] covariance
    and [y] of shape [(n_points, n)] whose row [k] is all zeros, [alpha] is
    NaN at [k].  When the validation of the distribution is switched off the
    call raises nothing and returns a vector of length [n_points] whose
    entry [k] is NaN; under the default, validating, setting the call raises
    the validation error. *)
Theorem log_pdf_zero_row (mu : list R) (covariance y precision : Tensor2)
  (n k : nat) :
  length mu = n -> size0 covariance = n -> size1 covariance = n ->
  size1 y = n ->
  linalg_inv covariance = Ok precision ->
  (k < size0 y)%nat ->
  (forall j, (j < n)%nat -> item y k j = 0) ->
  (exists l,
     log_pdf false mu covariance y = Ok (Vec l) /\
     length l = size0 y /\
     nth k l (Fin 0) = NaN) /\
  log_pdf true mu covariance y = Err InvalidValue.
Proof.
  intros Hmu Hc0 Hc1 Hy Hinv Hk Hzero.
  assert (Hq2 : form n (vget mu) (item precision) (item y k) = 0)
    by now apply form_zero_r.
  assert (Hq3 : form n (item y k) (item precision) (item y k) = 0)
    by now apply form_zero_r.
  split.
  - rewrite (log_pdf_matching false mu covariance y precision n)
      by assumption.
    cbn [andb]. eexists. split; [reflexivity | ].
    split; [now rewrite length_map, length_seq | ].
    rewrite nth_map_seq by assumption.
    rewrite Hq2, Hq3. apply log_density_nan_alpha.
  - rewrite (log_pdf_matching true mu covariance y precision n)
      by assumption.
    rewrite (existsb_is_nan_true _ _ k); [reflexivity | assumption | ].
    rewrite Hq2, Hq3. apply alpha_at_zero.
Qed.

(** The 2 x 2 identity covariance and [y = [[1, 0], [0, 0]]]. *)
Lemma log_pdf_zero_row_witness :
  (exists l,
     log_pdf false [0; 0] eye2 (matrix 2 2 [[1; 0]; [0; 0]]) = Ok (Vec l) /\
     length l = 2%nat /\
     nth 1 l (Fin 0) = NaN) /\
  log_pdf true [0; 0] eye2 (matrix 2 2 [[1; 0]; [0; 0]]) = Err InvalidValue.
Proof.
  destruct (linalg_inv_identity eye2 2 eq_refl eq_refl eye2_identity)
    as (p & Hinv & Hp).
  apply (log_pdf_zero_row [0; 0] eye2 (matrix 2 2 [[1; 0]; [0; 0]]) p 2 1
           eq_refl eq_refl eq_refl eq_refl Hinv).
  - simpl. lia.
  - intros [| [| j]] Hj; try lia; reflexivity.
Defined.

(** ** The numerical value of [ln(1 / (2 pi))] *)

Lemma scale_pos : 0 < IZR scale.
Proof. unfold scale. lra. Qed.

Lemma square_down_sound (k : nat) :
  forall (l : Z) (t : R),
    (0 <= l)%Z -> IZR l / IZR scale <= exp t ->
    IZR (square_down k l) / IZR scale <= exp (2 ^ k * t).
Proof.
  induction k as [| k IH]; intros l t Hl H; simpl.
  - now rewrite Rmult_1_l.
  - replace (2 * 2 ^ k * t) with (2 ^ k * (t + t)) by ring.
    apply IH.
    + apply Z.div_pos; [ | reflexivity ]. now apply Z.mul_nonneg_nonneg.
    + rewrite exp_plus.
      pose proof scale_pos as HS.
      assert (Hfloor : IZR scale * IZR (l * l / scale) <= IZR l * IZR l).
      { rewrite <- !mult_IZR. apply IZR_le.
        apply Z.mul_div_le. reflexivity. }
      assert (H0 : 0 <= IZR l / IZR scale).
      { apply Rmult_le_pos; [now apply IZR_le | ].
        apply Rlt_le, Rinv_0_lt_compat, HS. }
      apply Rle_trans with (IZR l / IZR scale * (IZR l / IZR scale)).
      * apply Rmult_le_reg_l with (IZR scale); [exact HS | ].
        apply Rmult_le_reg_l with (IZR scale); [exact HS | ].
        replace (IZR scale * (IZR scale * (IZR (l * l / scale) / IZR scale)))
          with (IZR scale * IZR (l * l / scale)) by (field; lra).
        replace (IZR scale * (IZR scale *
                   (IZR l / IZR scale * (IZR l / IZR scale))))
          with (IZR l * IZR l) by (field; lra).
        exact Hfloor.
      * apply Rmult_le_compat; assumption.
Qed.

Lemma square_up_sound (k : nat) :
  forall (u : Z) (t : R),
    exp t <= IZR u / IZR scale ->
    exp (2 ^ k * t) <= IZR (square_up k u) / IZR scale.
Proof.
  induction k as [| k IH]; intros u t H; simpl.
  - now rewrite Rmult_1_l.
  - replace (2 * 2 ^ k * t) with (2 ^ k * (t + t)) by ring.
    apply IH.
    rewrite exp_plus.
    pose proof scale_pos as HS.
    assert (Hceil : IZR u * IZR u <= IZR scale * IZR (u * u / scale + 1)).
    { rewrite <- !mult_IZR. apply IZR_le.
      pose proof (Z.mul_succ_div_gt (u * u) scale eq_refl). lia. }
    pose proof (exp_pos t) as He.
    apply Rle_trans with (IZR u / IZR scale * (IZR u / IZR scale)).
    + apply Rmult_le_compat; lra.
    + apply Rmult_le_reg_l with (IZR scale); [exact HS | ].
      apply Rmult_le_reg_l with (IZR scale); [exact HS | ].
      replace (IZR scale * (IZR scale *
                 (IZR (u * u / scale + 1) / IZR scale)))
        with (IZR scale * IZR (u * u / scale + 1)) by (field; lra).
      replace (IZR scale * (IZR scale *
                 (IZR u / IZR scale * (IZR u / IZR scale))))
        with (IZR u * IZR u) by (field; lra).
      exact Hceil.
Qed.

Lemma exp_183795_lower : 6.2832 < exp 1.83795.
Proof.
  replace 1.83795 with (2 ^ 20 * (1.83795 / 2 ^ 20)) by (field; lra).
  eapply Rlt_le_trans;
    [ | apply (square_down_sound 20 1000001752805709%Z) ].
  - set (v := square_down 20 1000001752805709%Z).
    vm_compute in v. subst v. unfold scale. lra.
  - lia.
  - eapply Rle_trans; [ | apply exp_ineq1_le ].
    unfold scale. simpl. lra.
Qed.

Lemma exp_183785_upper : exp 1.83785 < 6.28318.
Proof.
  replace 1.83785 with (2 ^ 20 * (1.83785 / 2 ^ 20)) by (field; lra).
  eapply Rle_lt_trans;
    [ apply (square_up_sound 20 1000001752713415%Z) | ].
  - set (t := 1.83785 / 2 ^ 20).
    pose proof (exp_ineq1_le (- t)) as Hneg.
    pose proof (exp_pos t) as Hpos.
    assert (Hinv : exp t * exp (- t) = 1).
    { rewrite <- exp_plus. replace (t + - t) with 0 by ring. apply exp_0. }
    assert (Ht : 0 < 1 + - t) by (unfold t; simpl; lra).
    assert (Hu : 1 <= (1 + - t) * (IZR 1000001752713415 / IZR scale))
      by (unfold t, scale; simpl; lra).
    assert (Hle : exp t * (1 + - t) <= 1).
    { rewrite <- Hinv. apply Rmult_le_compat_l; lra. }
    apply Rmult_le_reg_l with (1 + - t); [exact Ht | ].
    lra.
  - set (v := square_up 20 1000001752713415%Z).
    vm_compute in v. subst v. unfold scale. lra.
Qed.

Lemma PI_bounds : 3.14159 < PI < 3.1416.
Proof.
  pose proof (PI_2_3_7_ineq 3) as [Hlo Hhi].
  unfold sum_f_R0, tg_alt, PI_2_3_7_tg, Ratan_seq in Hlo, Hhi.
  simpl in Hlo, Hhi.
  split; lra.
Qed.

(** [ln(1 / (2 pi))] is -1.8379 to four decimals. *)
Lemma ln_inv_two_pi_bounds : -1.83795 < ln (1 / (2 * PI)) < -1.83785.
Proof.
  replace (1 / (2 * PI)) with (/ (2 * PI)) by lra.
  rewrite ln_Rinv by apply two_pi_pos.
  pose proof PI_bounds as [Hlo Hhi].
  pose proof exp_183795_lower as Hl.
  pose proof exp_183785_upper as Hu.
  assert (H1 : ln (exp 1.83785) < ln (2 * PI)).
  { apply ln_increasing; [apply exp_pos | lra]. }
  assert (H2 : ln (2 * PI) < ln (exp 1.83795)).
  { apply ln_increasing; [apply two_pi_pos | lra]. }
  rewrite ln_exp in H1, H2. lra.
Qed.

(** ** A concrete evaluation *)

Lemma log_density_isotropic_2 :
  log_density 2 eye2 0 0 1 = Fin (ln (1 / (2 * PI))).
Proof.
  unfold log_density.
  rewrite alpha_at_pos by lra.
  replace (0 / sqrt 1) with 0 by (rewrite sqrt_1; lra).
  rewrite M_elem_fin, M_real_2, M2_real_0.
  unfold term1, term2, term3, term4, term5.
  change (size0 eye2) with 2%nat. rewrite det_eye2.
  rewrite (xlog_fin 1) by lra. rewrite ln_1.
  simpl. f_equal.
  replace (1 / (2 * PI)) with (/ (2 * PI)) by lra.
  rewrite ln_Rinv by apply two_pi_pos.
  lra.
Qed.

(** C4: at [mu = [0, 0]], the 2 x 2 identity covariance and the single
    point [y = [[1, 0]]], the call returns the one-element vector
    [[ln(1 / (2 pi))]], and that number is -1.8379 to four decimals. *)
Theorem log_pdf_isotropic_2 (validate_args : bool) :
  log_pdf validate_args [0; 0] (matrix 2 2 [[1; 0]; [0; 1]])
    (matrix 1 2 [[1; 0]]) =
  Ok (Vec [Fin (ln (1 / (2 * PI)))]) /\
  -1.83795 < ln (1 / (2 * PI)) < -1.83785.
Proof.
  split; [ | exact ln_inv_two_pi_bounds ].
  fold eye2.
  destruct (linalg_inv_identity eye2 2 eq_refl eq_refl eye2_identity)
    as (p & Hinv & Hp).
  rewrite (log_pdf_matching validate_args [0; 0] eye2 (matrix 1 2 [[1; 0]])
             p 2 eq_refl eq_refl eq_refl Hinv).
  change (size0 (matrix 1 2 [[1; 0]])) with 1%nat. cbn [seq map].
  assert (Hq1 : form 2 (vget [0; 0]) (item p) (vget [0; 0]) = 0).
  { apply form_zero_l. intros [| [| i]] Hi; try lia; reflexivity. }
  assert (Hq2 : form 2 (vget [0; 0]) (item p)
                  (item (matrix 1 2 [[1; 0]]) 0) = 0).
  { apply form_zero_l. intros [| [| i]] Hi; try lia; reflexivity. }
  assert (Hq3 : form 2 (item (matrix 1 2 [[1; 0]]) 0) (item p)
                  (item (matrix 1 2 [[1; 0]]) 0) = 1).
  { rewrite form_identity by assumption. simpl. lra. }
  rewrite Hq1, Hq2, Hq3.
  rewrite alpha_at_pos by lra. simpl existsb. rewrite andb_false_r.
  now rewrite log_density_isotropic_2.
Qed.

(** ** The log-density in real numbers *)

(** Where the three logarithms are taken of positive numbers the entry of
    the result is the real number
    [-(n/2) ln(2 pi) - 0.5 ln(det) - (n/2) ln(q3) + 0.5 (alpha^2 - q1)
     + ln(M)], with [alpha = q2 / sqrt(q3)]. *)
Lemma log_density_real (n : nat) (covariance : Tensor2) (q1 q2 q3 : R) :
  0 < q3 ->
  0 < det (size0 covariance) (item covariance) ->
  0 < M_real (q2 / sqrt q3) n ->
  log_density n covariance q1 q2 q3 =
  Fin (- (INR n / 2) * ln (2 * PI)
       + -0.5 * ln (det (size0 covariance) (item covariance))
       + - (INR n / 2) * ln q3
       + 0.5 * ((q2 / sqrt q3) ^ 2 - q1)
       + ln (M_real (q2 / sqrt q3) n)).
Proof.
  intros Hq3 Hdet HM. unfold log_density.
  rewrite alpha_at_pos by assumption.
  rewrite M_elem_fin.
  unfold term1, term2, term3, term4, term5.
  rewrite !xlog_fin by assumption.
  simpl. f_equal. lra.
Qed.

(** ** Dimension 1 through [log_pdf] *)

(** The call of [_M_value] for dimension 1 is reached from [log_pdf] with a
    [mu] of length 1.  For the standard normal on the line ([mu = [0]],
    [covariance = [[1]]]) and the point [y = [[1]]] the call returns
    [-(1/2) ln(2 pi)], the logarithm of [1 / sqrt(2 pi)], whereas the
    projection of a centred normal variable is [+1] with probability
    [1/2]. *)
Lemma log_pdf_dim_1 (validate_args : bool) :
  log_pdf validate_args [0] (matrix 1 1 [[1]]) (matrix 1 1 [[1]]) =
  Ok (Vec [Fin (- (1 / 2) * ln (2 * PI))]).
Proof.
  assert (Hid : is_identity 1 (item (matrix 1 1 [[1]]))).
  { intros [| i] [| j] Hi Hj; try lia. reflexivity. }
  destruct (linalg_inv_identity (matrix 1 1 [[1]]) 1 eq_refl eq_refl Hid)
    as (p & Hinv & Hp).
  rewrite (log_pdf_matching validate_args [0] (matrix 1 1 [[1]])
             (matrix 1 1 [[1]]) p 1 eq_refl eq_refl eq_refl Hinv).
  change (size0 (matrix 1 1 [[1]])) with 1%nat. cbn [seq map].
  assert (Hq1 : form 1 (vget [0]) (item p) (vget [0]) = 0).
  { apply form_zero_l. intros [| i] Hi; try lia; reflexivity. }
  assert (Hq2 : form 1 (vget [0]) (item p) (item (matrix 1 1 [[1]]) 0) = 0).
  { apply form_zero_l. intros [| i] Hi; try lia; reflexivity. }
  assert (Hq3 : form 1 (item (matrix 1 1 [[1]]) 0) (item p)
                  (item (matrix 1 1 [[1]]) 0) = 1).
  { rewrite form_identity by assumption. simpl. lra. }
  rewrite Hq1, Hq2, Hq3.
  rewrite alpha_at_pos by lra. simpl existsb. rewrite andb_false_r.
  do 3 f_equal.
  unfold log_density.
  rewrite alpha_at_pos by lra.
  replace (0 / sqrt 1) with 0 by (rewrite sqrt_1; lra).
  rewrite M_elem_fin, M_real_1, M2_real_0.
  unfold term1, term2, term3, term4, term5.
  assert (Hdet : det 1 (item (matrix 1 1 [[1]])) = 1).
  { unfold matrix. simpl. unfold minor. simpl. lra. }
  change (size0 (matrix 1 1 [[1]])) with 1%nat. rewrite Hdet.
  rewrite (xlog_fin 1) by lra. rewrite ln_1.
  simpl. f_equal. lra.
Qed.

Lemma ln_sqrt_two_pi : ln (sqrt (2 * PI)) = ln (2 * PI) / 2.
Proof.
  pose proof two_pi_pos as H2. pose proof (sqrt_lt_R0 _ H2) as Hs.
  assert (E : ln (2 * PI) = ln (sqrt (2 * PI)) + ln (sqrt (2 * PI))).
  { rewrite <- ln_mult by assumption. now rewrite sqrt_sqrt by lra. }
  lra.
Qed.

Lemma ln_two_pi_neq : ln (2 * PI) <> 2 * ln 2.
Proof.
  pose proof PI2_1 as Hpi.
  assert (H : ln (2 * 2) < ln (2 * PI))
    by (apply ln_increasing; lra).
  rewrite ln_mult in H by lra. lra.
Qed.

(** C3, at the input [mu = [0]], [covariance = [[1]]], [y = [[1]]], where
    [n = 1], [q1 = 0], [q2 = 0], [q3 = 1] and [alpha = 0]: [log_pdf] returns
    [-(1/2) ln(2 pi)], since the call of [_M_value] for dimension 1 gives
    [M(2) = 1]; the sum of the five terms with [M(1) = sqrt(2 pi) Phi(0)]
    in the fifth is [-ln 2]. *)
Theorem log_pdf_dim_1_not_five_terms (validate_args : bool) :
  log_pdf validate_args [0] (matrix 1 1 [[1]]) (matrix 1 1 [[1]]) =
  Ok (Vec [Fin (- (1 / 2) * ln (2 * PI))]) /\
  xadd (xadd (xadd (xadd (term1 1) (term2 (matrix 1 1 [[1]])))
                (term3 1 1))
          (term4 (Fin 0) 0))
       (term5 (Fin (RecursiveM_spec 0 1))) = Fin (- ln 2) /\
  - (1 / 2) * ln (2 * PI) <> - ln 2.
Proof.
  split; [apply log_pdf_dim_1 | ]. split.
  - unfold term1, term2, term3, term4, term5.
    assert (Hdet : det 1 (item (matrix 1 1 [[1]])) = 1).
    { unfold matrix. simpl. unfold minor. simpl. lra. }
    change (size0 (matrix 1 1 [[1]])) with 1%nat. rewrite Hdet.
    rewrite (xlog_fin 1) by lra. rewrite ln_1.
    cbn [RecursiveM_spec]. rewrite Phi_0.
    pose proof two_pi_pos as H2. pose proof (sqrt_lt_R0 _ H2) as Hs.
    rewrite xlog_fin by lra.
    assert (E : ln (sqrt (2 * PI) * (1 / 2)) = ln (2 * PI) / 2 - ln 2).
    { rewrite ln_mult by lra.
      replace (1 / 2) with (/ 2) by lra. rewrite ln_Rinv by lra.
      rewrite ln_sqrt_two_pi. lra. }
    rewrite E. simpl. f_equal. lra.
  - pose proof ln_two_pi_neq. lra.
Qed.

(** ** The five terms at a concrete input *)

(** The hypotheses of [log_pdf_five_terms] hold at [mu = [0, 0]], the
    2 x 2 identity covariance and [y = [[1, 0]]]. *)
Lemma log_pdf_five_terms_witness :
  exists l M,
    log_pdf true [0; 0] eye2 (matrix 1 2 [[1; 0]]) = Ok (Vec l) /\
    length l = 1%nat /\
    _M_value true (Scalar (Fin 0)) 2 = Ok (Scalar M) /\
    nth 0 l NaN =
    xadd (xadd (xadd (xadd (term1 2) (term2 eye2)) (term3 2 1))
            (term4 (Fin 0) 0))
         (term5 M).
Proof.
  destruct (linalg_inv_identity eye2 2 eq_refl eq_refl eye2_identity)
    as (p & Hinv & Hp).
  assert (Hq1 : form 2 (vget [0; 0]) (item p) (vget [0; 0]) = 0).
  { apply form_zero_l. intros [| [| i]] Hi; try lia; reflexivity. }
  assert (Hq2 : form 2 (vget [0; 0]) (item p)
                  (item (matrix 1 2 [[1; 0]]) 0) = 0).
  { apply form_zero_l. intros [| [| i]] Hi; try lia; reflexivity. }
  assert (Hq3 : form 2 (item (matrix 1 2 [[1; 0]]) 0) (item p)
                  (item (matrix 1 2 [[1; 0]]) 0) = 1).
  { rewrite form_identity by assumption. simpl. lra. }
  assert (Ha : xdiv (Fin 0) (xsqrt (Fin 1)) = Fin 0).
  { rewrite xsqrt_fin by lra. rewrite sqrt_1.
    rewrite xdiv_fin by lra. f_equal. lra. }
  destruct (log_pdf_five_terms true [0; 0] eye2 (matrix 1 2 [[1; 0]]) p 2
              eq_refl eq_refl eq_refl eq_refl Hinv)
    as (_ & l & Hl & Hlen & Hent).
  - right. intros k Hk. simpl in Hk.
    assert (k = 0%nat) as -> by lia.
    rewrite Hq2, Hq3, Ha. discriminate.
  - destruct (Hent 0%nat) as (M & HM & Hnth & _); [simpl; lia | ].
    rewrite Hq1, Hq2, Hq3, Ha in *.
    exists l, M. repeat split; assumption.
Defined.

(** * Further properties of the three functions *)

(** ** The distribution function on non-negative arguments *)







(** ** [_M_value]: batches, errors, special values *)

Lemma existsb_is_nan_nth (l : list xreal) (k : nat) :
  existsb is_nan l = false -> is_nan (nth k l NaN) = false \/ (length l <= k)%nat.
Proof.
  revert k. induction l as [| x l IH]; intros k H; simpl in *.
  - right. lia.
  - apply orb_false_iff in H. destruct H as [Hx Hl].
    destruct k as [| k]; [now left | ].
    destruct (IH k Hl) as [E | E]; [now left | right; lia].
Qed.

(** X1: a call on a 1-dimensional [alpha] that returns gives a vector of
    the same length whose entry [k] is what a call on the 0-dimensional
    tensor [alpha[k]] returns: the points of a batch do not influence each
    other. *)
Theorem M_value_batch_elementwise (validate_args : bool) (l : list xreal)
  (n_dim : nat) (t : tensor) :
  _M_value validate_args (Vec l) n_dim = Ok t ->
  exists l',
    t = Vec l' /\ length l' = length l /\
    forall k, (k < length l)%nat ->
      _M_value validate_args (Scalar (nth k l NaN)) n_dim =
      Ok (Scalar (nth k l' NaN)).
Proof.
  rewrite M_value_vec. intros H.
  destruct (validate_args && existsb is_nan l) eqn:Hv; [discriminate | ].
  injection H as <-.
  exists (map (fun a => M_elem a n_dim) l).
  split; [reflexivity | ]. split; [apply length_map | ].
  intros k Hk. rewrite M_value_scalar.
  assert (Hnan : validate_args && is_nan (nth k l NaN) = false).
  { destruct validate_args; [ | reflexivity ]. simpl in Hv |- *.
    destruct (existsb_is_nan_nth l k Hv) as [E | E]; [exact E | lia]. }
  rewrite Hnan. do 2 f_equal.
  rewrite (nth_indep (map (fun a => M_elem a n_dim) l) NaN
             (M_elem NaN n_dim)) by now rewrite length_map.
  symmetry. apply (map_nth (fun a => M_elem a n_dim)).
Qed.

(** A batch of a finite value and [+inf], dimension 3. *)
Lemma M_value_batch_elementwise_witness :
  exists l',
    Vec (map (fun a => M_elem a 3) [Fin 0; PInf]) = Vec l' /\
    length l' = length [Fin 0; PInf] /\
    forall k, (k < length [Fin 0; PInf])%nat ->
      _M_value true (Scalar (nth k [Fin 0; PInf] NaN)) 3 =
      Ok (Scalar (nth k l' NaN)).
Proof.
  apply (M_value_batch_elementwise true [Fin 0; PInf] 3).
  rewrite M_value_vec. reflexivity.
Defined.

(** [_M_value] raises exactly when the validation of the distribution is
    on and [alpha] holds a NaN, whatever [n_dim]; the error is then the
    validation's. *)
Lemma M_value_raises_iff_nan (validate_args : bool) (alpha : tensor)
  (n_dim : nat) :
  ((exists e, _M_value validate_args alpha n_dim = Err e) <->
   validate_args = true /\ existsb is_nan (elements alpha) = true) /\
  (forall e, _M_value validate_args alpha n_dim = Err e -> e = InvalidValue).
Proof.
  unfold _M_value, normal_cdf.
  destruct validate_args, (existsb is_nan (elements alpha)); cbn [andb bind].
  - split; [split | ].
    + intros _. split; reflexivity.
    + intros _. eexists. reflexivity.
    + intros e H. now injection H.
  - split; [split | ].
    + intros [e H]. discriminate.
    + intros [_ H]. discriminate.
    + intros e H. discriminate.
  - split; [split | ].
    + intros [e H]. discriminate.
    + intros [H _]. discriminate.
    + intros e H. discriminate.
  - split; [split | ].
    + intros [e H]. discriminate.
    + intros [H _]. discriminate.
    + intros e H. discriminate.
Qed.

Lemma range_3_succ (n : nat) :
  (3 <= n)%nat -> range 3 (n + 1) = range 3 (n - 1 + 1) ++ [n].
Proof.
  intros Hn. unfold range.
  replace (n + 1 - 3)%nat with (S (n - 1 + 1 - 3)) by lia.
  rewrite seq_S. do 2 f_equal. lia.
Qed.

(** X2: from dimension 4 on the results of three calls on the same
    [alpha] -- a tensor of either rank, with any entries -- satisfy the
    recurrence [M(n) = (n - 2) * M(n - 2) + alpha * M(n - 1)], computed with
    the operators of the code. *)
Theorem M_value_recurrence_tensor (validate_args : bool) (alpha : tensor)
  (n : nat) (t t1 t2 : tensor) :
  (4 <= n)%nat ->
  _M_value validate_args alpha n = Ok t ->
  _M_value validate_args alpha (n - 1) = Ok t1 ->
  _M_value validate_args alpha (n - 2) = Ok t2 ->
  t = t_add (t_mul (py_int (Z.of_nat n - 2)) t2) (t_mul alpha t1).
Proof.
  intros Hn. unfold _M_value.
  destruct (normal_cdf validate_args alpha) as [norm_cdf | e];
    cbn [bind]; [ | discriminate ].
  intros H H1 H2.
  injection H as <-. injection H1 as <-. injection H2 as <-.
  rewrite (range_3_succ n) by lia.
  rewrite fold_left_app. cbn [fold_left]. unfold M_step at 1. cbn [snd].
  do 2 f_equal.
  rewrite (range_3_succ (n - 1)) by lia.
  rewrite fold_left_app. cbn [fold_left]. unfold M_step at 1. cbn [fst].
  replace (n - 1 - 1 + 1)%nat with (n - 2 + 1)%nat by lia.
  reflexivity.
Qed.

(** A batch of two finite values, dimension 4, validation switched off. *)
Lemma M_value_recurrence_tensor_witness :
  exists t t1 t2,
    _M_value false (Vec [Fin 0; Fin 1]) 4 = Ok t /\
    _M_value false (Vec [Fin 0; Fin 1]) 3 = Ok t1 /\
    _M_value false (Vec [Fin 0; Fin 1]) 2 = Ok t2 /\
    t = t_add (t_mul (py_int (Z.of_nat 4 - 2)) t2)
              (t_mul (Vec [Fin 0; Fin 1]) t1).
Proof.
  eexists. eexists. eexists.
  split; [reflexivity | ]. split; [reflexivity | ]. split; [reflexivity | ].
  apply (M_value_recurrence_tensor false (Vec [Fin 0; Fin 1]) 4);
    [lia | reflexivity | reflexivity | reflexivity].
Defined.





Lemma x_M1_pinf : x_M1 PInf = Fin (sqrt (2 * PI) * 1).
Proof. unfold x_M1. rewrite xsqrt_two_pi. reflexivity. Qed.

Lemma x_M2_pinf : x_M2 PInf = PInf.
Proof.
  unfold x_M2. rewrite x_M1_pinf.
  pose proof two_pi_pos as H2. pose proof (sqrt_lt_R0 _ H2) as Hs.
  unfold xpow2, xmul, xexp, xadd. real_cases.
Qed.

Lemma x_M2_ninf : x_M2 NInf = NaN.
Proof.
  unfold x_M2, x_M1. rewrite xsqrt_two_pi.
  unfold xcdf, xpow2, xmul, xexp, xadd. real_cases.
Qed.

(** At [alpha = +inf] the second component stays [+inf], the first one is
    finite or [+inf]. *)
Lemma x_loop_pinf (k s : nat) (m : xreal * xreal) :
  (3 <= s)%nat -> snd m = PInf ->
  (fst m = PInf \/ exists c, fst m = Fin c) ->
  snd (fold_left (x_step PInf) (seq s k) m) = PInf.
Proof.
  revert s m. induction k as [| k IH]; intros s m Hs H1 H0; simpl.
  - exact H1.
  - apply IH; [lia | | left; exact H1 ].
    unfold x_step. cbn [snd]. rewrite H1.
    assert (Hi : 1 <= IZR (Z.of_nat s - 2)) by (apply IZR_le; lia).
    destruct H0 as [-> | [c ->]]; unfold xmul, xadd; real_cases.
Qed.

Lemma x_loop_nan (a : xreal) (l : list nat) (m : xreal * xreal) :
  snd m = NaN -> snd (fold_left (x_step a) l m) = NaN.
Proof.
  revert m. induction l as [| i l IH]; intros m H; simpl.
  - exact H.
  - apply IH. unfold x_step. cbn [snd]. rewrite H.
    now rewrite xmul_nan_r, xadd_nan_r.
Qed.

(** X5: for every dimension, [_M_value] returns [+inf] at [alpha = +inf]
    and NaN at [alpha = -inf] (where [M1] is 0 and [alpha * M1] is
    [-inf * 0]); neither call raises. *)
Theorem M_value_at_infinity (validate_args : bool) (n_dim : nat) :
  _M_value validate_args (Scalar PInf) n_dim = Ok (Scalar PInf) /\
  _M_value validate_args (Scalar NInf) n_dim = Ok (Scalar NaN).
Proof.
  rewrite !M_value_scalar. cbn [is_nan]. rewrite andb_false_r.
  unfold M_elem, range. split; do 2 f_equal.
  - apply x_loop_pinf; cbn [fst snd].
    + lia.
    + apply x_M2_pinf.
    + right. eexists. apply x_M1_pinf.
  - apply x_loop_nan. apply x_M2_ninf.
Qed.

(** ** [log_pdf] and [pdf]: symmetries *)

Lemma vget_neg1 (a : list R) (i : nat) : vget (neg1 a) i = - vget a i.
Proof.
  unfold vget, neg1.
  transitivity (nth i (map Ropp a) (- 0)).
  - f_equal. symmetry. apply Ropp_0.
  - apply map_nth.
Qed.

Lemma length_neg1 (a : list R) : length (neg1 a) = length a.
Proof. apply length_map. Qed.

Lemma einsum_i_ij_j_neg (a : list R) (p : Tensor2) :
  einsum_i_ij_j (neg1 a) p (neg1 a) = einsum_i_ij_j a p a.
Proof.
  unfold einsum_i_ij_j. rewrite !length_neg1.
  destruct (broadcast_size (length a) (size0 p)) as [I | e]; cbn [bind];
    [ | reflexivity ].
  destruct (broadcast_size (size1 p) (length a)) as [J | e]; cbn [bind];
    [ | reflexivity ].
  do 3 f_equal.
  apply rsum_ext; intros i _. apply rsum_ext; intros j _.
  rewrite !vget_neg1. ring.
Qed.

Lemma einsum_i_ij_jE_neg (a : list R) (p y : Tensor2) :
  einsum_i_ij_jE (neg1 a) p (transpose (neg2 y)) =
  einsum_i_ij_jE a p (transpose y).
Proof.
  unfold einsum_i_ij_jE. rewrite !length_neg1.
  cbn [transpose neg2 size0 size1 item].
  destruct (broadcast_size (length a) (size0 p)) as [I | e]; cbn [bind];
    [ | reflexivity ].
  destruct (broadcast_size (size1 p) (size1 y)) as [J | e]; cbn [bind];
    [ | reflexivity ].
  do 2 f_equal. apply map_ext; intros k. f_equal.
  apply rsum_ext; intros i _. apply rsum_ext; intros j _.
  rewrite !vget_neg1. ring.
Qed.

Lemma einsum_Ei_ij_jE_neg (p y : Tensor2) :
  einsum_Ei_ij_jE (neg2 y) p (transpose (neg2 y)) =
  einsum_Ei_ij_jE y p (transpose y).
Proof.
  unfold einsum_Ei_ij_jE.
  cbn [transpose neg2 size0 size1 item].
  destruct (broadcast_size (size1 y) (size0 p)) as [I | e]; cbn [bind];
    [ | reflexivity ].
  destruct (broadcast_size (size1 p) (size1 y)) as [J | e]; cbn [bind];
    [ | reflexivity ].
  destruct (broadcast_size (size0 y) (size0 y)) as [E | e]; cbn [bind];
    [ | reflexivity ].
  do 2 f_equal. apply map_ext; intros k. f_equal.
  apply rsum_ext; intros i _. apply rsum_ext; intros j _.
  ring.
Qed.

(** X6: the antipodal symmetry.  Negating both the mean and the points
    changes nothing: [log_pdf(-mu, covariance, -y)] is
    [log_pdf(mu, covariance, y)], value or error, for operands of any shape,
    and the same holds for [pdf]. *)
Theorem log_pdf_antipodal (validate_args : bool) (mu : list R)
  (covariance y : Tensor2) :
  log_pdf validate_args (neg1 mu) covariance (neg2 y) =
  log_pdf validate_args mu covariance y /\
  pdf validate_args (neg1 mu) covariance (neg2 y) =
  pdf validate_args mu covariance y.
Proof.
  assert (H : log_pdf validate_args (neg1 mu) covariance (neg2 y) =
              log_pdf validate_args mu covariance y).
  { unfold log_pdf. rewrite length_neg1.
    destruct (linalg_inv covariance) as [precision | e]; cbn [bind];
      [ | reflexivity ].
    rewrite einsum_i_ij_j_neg, einsum_i_ij_jE_neg, einsum_Ei_ij_jE_neg.
    reflexivity. }
  split; [exact H | ]. unfold pdf. now rewrite H.
Qed.







(** A call on operands of matching shapes returns when every point has a
    positive quadratic form [q3]. *)
Lemma log_pdf_returns (validate_args : bool) (mu : list R)
  (covariance y precision : Tensor2) (n : nat) :
  length mu = n -> size0 covariance = n -> size1 y = n ->
  linalg_inv covariance = Ok precision ->
  (forall k, (k < size0 y)%nat ->
     0 < form n (item y k) (item precision) (item y k)) ->
  log_pdf validate_args mu covariance y =
  Ok (Vec (map (fun k =>
             log_density n covariance
               (form n (vget mu) (item precision) (vget mu))
               (form n (vget mu) (item precision) (item y k))
               (form n (item y k) (item precision) (item y k)))
          (seq 0 (size0 y)))).
Proof.
  intros Hmu Hc Hy Hinv Hq3.
  rewrite (log_pdf_matching validate_args mu covariance y precision n)
    by assumption.
  rewrite existsb_is_nan_false, andb_false_r; [reflexivity | ].
  intros k Hk. rewrite alpha_at_pos by now apply Hq3. discriminate.
Qed.


Lemma form_eye2_point (p : Tensor2) :
  is_identity 2 (item p) ->
  forall k, (k < 1)%nat ->
    0 < form 2 (item (matrix 1 2 [[1; 0]]) k) (item p)
          (item (matrix 1 2 [[1; 0]]) k).
Proof.
  intros Hp k Hk. rewrite form_identity by assumption.
  destruct k as [| k]; [ | lia ]. simpl. lra.
Qed.


(** ** [log_pdf] at the isotropic, centred distribution *)

(** X8: for the centred, isotropic distribution -- [mu = 0] and the
    identity covariance, in any dimension [n] -- the call returns, and the
    log-density is the same at every unit-norm point: each entry is the one
    value computed from [q1 = 0], [q2 = 0] and [q3 = 1], whatever the
    point. *)
Theorem log_pdf_isotropic_constant (validate_args : bool) (mu : list R)
  (covariance y : Tensor2) (n : nat) :
  length mu = n ->
  (forall i, (i < n)%nat -> vget mu i = 0) ->
  size0 covariance = n -> size1 covariance = n ->
  is_identity n (item covariance) ->
  size1 y = n ->
  (forall k, (k < size0 y)%nat ->
     rsum n (fun j => item y k j * item y k j) = 1) ->
  exists l,
    log_pdf validate_args mu covariance y = Ok (Vec l) /\
    length l = size0 y /\
    (forall k, (k < size0 y)%nat ->
       nth k l NaN = log_density n covariance 0 0 1) /\
    (forall k k', (k < size0 y)%nat -> (k' < size0 y)%nat ->
       nth k l NaN = nth k' l NaN).
Proof.
  intros Hmu Hzero Hc0 Hc1 Hid Hy Hunit.
  destruct (linalg_inv_identity covariance n Hc0 Hc1 Hid) as (p & Hinv & Hp).
  assert (Hq3 : forall k, (k < size0 y)%nat ->
                  form n (item y k) (item p) (item y k) = 1).
  { intros k Hk. rewrite form_identity by assumption. now apply Hunit. }
  eexists. split.
  - apply (log_pdf_returns validate_args mu covariance y p n);
      try assumption.
    intros k Hk. rewrite Hq3 by assumption. lra.
  - assert (Hent : forall k, (k < size0 y)%nat ->
             nth k
               (map (fun k0 =>
                  log_density n covariance
                    (form n (vget mu) (item p) (vget mu))
                    (form n (vget mu) (item p) (item y k0))
                    (form n (item y k0) (item p) (item y k0)))
                  (seq 0 (size0 y))) NaN =
             log_density n covariance 0 0 1).
    { intros k Hk. rewrite nth_map_seq by assumption.
      rewrite Hq3 by assumption.
      now rewrite !form_zero_l by assumption. }
    split; [now rewrite length_map, length_seq | ].
    split; [exact Hent | ].
    intros k k' Hk Hk'. now rewrite !Hent.
Qed.

(** Dimension 3 and five unit vectors. *)
Lemma log_pdf_isotropic_constant_witness :
  exists l,
    log_pdf true [0; 0; 0] eye3 unit_rows_5_3 = Ok (Vec l) /\
    length l = size0 unit_rows_5_3 /\
    (forall k, (k < size0 unit_rows_5_3)%nat ->
       nth k l NaN = log_density 3 eye3 0 0 1) /\
    (forall k k', (k < size0 unit_rows_5_3)%nat ->
       (k' < size0 unit_rows_5_3)%nat ->
       nth k l NaN = nth k' l NaN).
Proof.
  apply (log_pdf_isotropic_constant true [0; 0; 0] eye3 unit_rows_5_3 3
           eq_refl).
  - intros [| [| [| i]]] Hi; try lia; reflexivity.
  - reflexivity.
  - reflexivity.
  - exact eye3_identity.
  - reflexivity.
  - intros k Hk. simpl in Hk.
    destruct k as [| [| [| [| [| k]]]]]; try lia; simpl; lra.
Defined.

(** ** [log_pdf] and [pdf]: batches and validation *)

Lemma form_rows_eq (n : nat) (u u' : nat -> R) (p : nat -> nat -> R)
  (v v' : nat -> R) :
  (forall i, (i < n)%nat -> u i = u' i) ->
  (forall j, (j < n)%nat -> v j = v' j) ->
  form n u p v = form n u' p v'.
Proof.
  intros Hu Hv. unfold form.
  apply rsum_ext; intros i Hi. apply rsum_ext; intros j Hj.
  now rewrite Hu, Hv.
Qed.

(** X9: the log-density of a point does not depend on the batch it is
    evaluated in, nor on its place there: when row [k] of [y] and row [k']
    of [y'] are the same point and both calls return, entry [k] of the one
    result is entry [k'] of the other. *)
Theorem log_pdf_row_independent (validate_args : bool) (mu : list R)
  (covariance y y' : Tensor2) (n k k' : nat) (l l' : list xreal) :
  length mu = n -> size0 covariance = n ->
  size1 y = n -> size1 y' = n ->
  (k < size0 y)%nat -> (k' < size0 y')%nat ->
  (forall j, (j < n)%nat -> item y k j = item y' k' j) ->
  log_pdf validate_args mu covariance y = Ok (Vec l) ->
  log_pdf validate_args mu covariance y' = Ok (Vec l') ->
  nth k l NaN = nth k' l' NaN.
Proof.
  intros Hmu Hc Hy Hy' Hk Hk' Hrow H H'.
  destruct (linalg_inv covariance) as [p | e] eqn:Hinv;
    [ | rewrite (log_pdf_inv_error _ _ _ _ _ Hinv) in H; discriminate ].
  rewrite (log_pdf_matching validate_args mu covariance y p n) in H
    by assumption.
  rewrite (log_pdf_matching validate_args mu covariance y' p n) in H'
    by assumption.
  destruct (validate_args && existsb is_nan _) in H; [discriminate | ].
  destruct (validate_args && existsb is_nan _) in H'; [discriminate | ].
  injection H as <-. injection H' as <-.
  rewrite !nth_map_seq by assumption.
  rewrite (form_rows_eq n (vget mu) (vget mu) (item p)
             (item y k) (item y' k')) by auto.
  rewrite (form_rows_eq n (item y k) (item y' k') (item p)
             (item y k) (item y' k')) by auto.
  reflexivity.
Qed.

(** The point [(1, 0)] alone and as the second of two points. *)
Lemma log_pdf_row_independent_witness :
  exists l l',
    log_pdf true [0; 0] eye2 (matrix 1 2 [[1; 0]]) = Ok (Vec l) /\
    log_pdf true [0; 0] eye2 (matrix 2 2 [[0; 1]; [1; 0]]) = Ok (Vec l') /\
    nth 0 l NaN = nth 1 l' NaN.
Proof.
  destruct (linalg_inv_identity eye2 2 eq_refl eq_refl eye2_identity)
    as (p & Hinv & Hp).
  pose proof (log_pdf_returns true [0; 0] eye2 (matrix 1 2 [[1; 0]]) p 2
                eq_refl eq_refl eq_refl Hinv (form_eye2_point p Hp)) as H.
  assert (Hq : forall k, (k < 2)%nat ->
                 0 < form 2 (item (matrix 2 2 [[0; 1]; [1; 0]]) k) (item p)
                       (item (matrix 2 2 [[0; 1]; [1; 0]]) k)).
  { intros k Hk. rewrite form_identity by assumption.
    destruct k as [| [| k]]; try lia; simpl; lra. }
  pose proof (log_pdf_returns true [0; 0] eye2
                (matrix 2 2 [[0; 1]; [1; 0]]) p 2
                eq_refl eq_refl eq_refl Hinv Hq) as H'.
  eexists. eexists. split; [exact H | ]. split; [exact H' | ].
  apply (log_pdf_row_independent true [0; 0] eye2 (matrix 1 2 [[1; 0]])
           (matrix 2 2 [[0; 1]; [1; 0]]) 2 0 1 _ _
           eq_refl eq_refl eq_refl eq_refl); try exact H; try exact H'.
  - simpl. lia.
  - simpl. lia.
  - intros [| [| j]] Hj; try lia; reflexivity.
Defined.

Lemma xexp_density_value (x : xreal) : density_value (xexp x).
Proof.
  unfold density_value. destruct x; simpl.
  - right. right. eexists. split; [reflexivity | ]. apply Rlt_le, exp_pos.
  - right. now left.
  - right. right. exists 0. split; [reflexivity | lra].
  - now left.
Qed.

(** X10: whatever the operands, a call of [pdf] that returns gives a
    vector with one entry per row of [y], and no entry is negative or
    [-inf]: each one is a non-negative number, [+inf] or NaN. *)
Theorem pdf_entries_nonnegative (validate_args : bool) (mu : list R)
  (covariance y : Tensor2) (t : tensor) :
  pdf validate_args mu covariance y = Ok t ->
  exists l,
    t = Vec l /\ length l = size0 y /\ Forall density_value l.
Proof.
  unfold pdf. intros H.
  destruct (log_pdf validate_args mu covariance y) as [lpdf | e] eqn:Hl;
    cbn [bind] in H; [ | discriminate ].
  destruct (log_pdf_lengths _ _ _ _ _ Hl) as (l0 & -> & Hlen).
  injection H as <-. exists (map xexp l0).
  split; [reflexivity | ]. split; [now rewrite length_map | ].
  apply Forall_forall. intros x Hx.
  apply in_map_iff in Hx. destruct Hx as (x0 & <- & _).
  apply xexp_density_value.
Qed.

(** The 2 x 2 identity covariance and the point [(1, 0)]. *)
Lemma pdf_entries_nonnegative_witness :
  exists l,
    pdf true [0; 0] eye2 (matrix 1 2 [[1; 0]]) = Ok (Vec l) /\
    length l = 1%nat /\ Forall density_value l.
Proof.
  destruct (linalg_inv_identity eye2 2 eq_refl eq_refl eye2_identity)
    as (p & Hinv & Hp).
  assert (H : exists t, pdf true [0; 0] eye2 (matrix 1 2 [[1; 0]]) = Ok t).
  { unfold pdf.
    rewrite (log_pdf_returns true [0; 0] eye2 (matrix 1 2 [[1; 0]]) p 2
               eq_refl eq_refl eq_refl Hinv (form_eye2_point p Hp)).
    cbn [bind]. eexists. reflexivity. }
  destruct H as [t Ht].
  destruct (pdf_entries_nonnegative true [0; 0] eye2 (matrix 1 2 [[1; 0]])
              t Ht) as (l & -> & Hlen & Hall).
  exists l. split; [exact Ht | ]. split; [exact Hlen | exact Hall].
Defined.

(** X11: an empty batch.  With a square, invertible covariance and sizes
    that broadcast, a [y] without rows makes [log_pdf] and [pdf] return the
    empty vector; nothing is raised, with or without validation. *)
Theorem log_pdf_empty_batch (validate_args : bool) (mu : list R)
  (covariance y : Tensor2) :
  size0 covariance = size1 covariance ->
  invertible covariance ->
  compatible (length mu) (size0 covariance) ->
  compatible (size0 covariance) (size1 y) ->
  size0 y = 0%nat ->
  log_pdf validate_args mu covariance y = Ok (Vec []) /\
  pdf validate_args mu covariance y = Ok (Vec []).
Proof.
  intros Hsq Hinv Hm Hy Hempty.
  destruct (linalg_inv_invertible covariance Hsq Hinv) as [p Hp].
  destruct (log_pdf_compatible validate_args mu covariance y p Hp Hm Hy)
    as (q1 & q2 & q3 & E).
  rewrite Hempty in E. cbn [seq map existsb] in E. rewrite andb_false_r in E.
  split; [exact E | ]. unfold pdf. rewrite E. reflexivity.
Qed.

(** The 2 x 2 identity covariance and a [y] of shape (0, 2). *)
Lemma log_pdf_empty_batch_witness :
  log_pdf true [1; 2] eye2 (matrix 0 2 []) = Ok (Vec []) /\
  pdf true [1; 2] eye2 (matrix 0 2 []) = Ok (Vec []).
Proof.
  apply (log_pdf_empty_batch true [1; 2] eye2 (matrix 0 2 [])).
  - reflexivity.
  - exact eye2_invertible.
  - left. reflexivity.
  - left. reflexivity.
  - reflexivity.
Defined.

Lemma M_value_without_validation (alpha : tensor) (n_dim : nat)
  (t : tensor) :
  _M_value true alpha n_dim = Ok t -> _M_value false alpha n_dim = Ok t.
Proof.
  unfold _M_value, normal_cdf. cbn [andb].
  destruct (existsb is_nan (elements alpha)); [discriminate | ].
  intros H. exact H.
Qed.

Lemma M_value_false_returns (alpha : tensor) (n_dim : nat) :
  exists t, _M_value false alpha n_dim = Ok t.
Proof.
  unfold _M_value, normal_cdf. cbn [andb bind]. eexists. reflexivity.
Qed.

(** X12: the validation of the distribution only adds a way to fail.  A
    result returned with the validation on is returned unchanged with the
    validation off, and an error raised with the validation off -- from
    the inversion or from the shapes -- is raised with the validation on
    as well. *)
Theorem log_pdf_validation_only_rejects (mu : list R)
  (covariance y : Tensor2) :
  (forall t, log_pdf true mu covariance y = Ok t ->
             log_pdf false mu covariance y = Ok t) /\
  (forall e, log_pdf false mu covariance y = Err e ->
             log_pdf true mu covariance y = Err e).
Proof.
  unfold log_pdf.
  destruct (linalg_inv covariance) as [precision | e0]; cbn [bind];
    [ | split; [discriminate | auto] ].
  destruct (einsum_i_ij_j mu precision mu) as [q1 | e0]; cbn [bind];
    [ | split; [discriminate | auto] ].
  destruct (einsum_i_ij_jE mu precision (transpose y)) as [q2 | e0];
    cbn [bind]; [ | split; [discriminate | auto] ].
  destruct (einsum_Ei_ij_jE y precision (transpose y)) as [q3 | e0];
    cbn [bind]; [ | split; [discriminate | auto] ].
  destruct (M_value_false_returns (t_div q2 (t_sqrt q3)) (length mu))
    as [M HM].
  split.
  - intros t H.
    destruct (_M_value true (t_div q2 (t_sqrt q3)) (length mu))
      as [M' | e0] eqn:HM'; cbn [bind] in H; [ | discriminate ].
    rewrite (M_value_without_validation _ _ _ HM'). exact H.
  - intros e H. rewrite HM in H. discriminate.
Qed.
